(** * The support agent core of cx_support_agent.py

    A shallow embedding of the sanitizer [strip_artifacts], the history
    formatter [format_chat_history], the query handler [handle_query] and the
    session facade [answer_question], with the properties the design
    specification states about them. *)

From Stdlib Require Import NArith String Ascii Lia.
From stdpp Require Import gmap list.

Local Open Scope N_scope.

(** ** Python text

    A Python [str] is a sequence of Unicode code points. *)

Abbreviation str := (list N).

(** An ASCII literal of the source, as a [str]. *)
Definition py (s : string) : str := map N_of_ascii (list_ascii_of_string s).

(** The line feed, written [\n] in the source. *)
Definition LF : N := 10.

(** [str.isspace] on one code point; the pattern class [\s] of a [str]
    pattern is the same set. *)
Definition isspace (c : N) : bool :=
  ((9 <=? c) && (c <=? 13)) || ((28 <=? c) && (c <=? 32))
  || (c =? 133) || (c =? 160) || (c =? 5760)
  || ((8192 <=? c) && (c <=? 8202))
  || (c =? 8232) || (c =? 8233) || (c =? 8239) || (c =? 8287) || (c =? 12288).

(** [str.lstrip()], [str.rstrip()] and [str.strip()] without argument. *)
Fixpoint lstrip (s : str) : str :=
  match s with
  | c :: s' => if isspace c then lstrip s' else s
  | [] => []
  end.

Definition rstrip (s : str) : str := rev (lstrip (rev s)).

Definition strip (s : str) : str := rstrip (lstrip s).

(** [sep.join(parts)]. *)
Fixpoint join (sep : str) (parts : list str) : str :=
  match parts with
  | [] => []
  | [p] => p
  | p :: ps => p ++ sep ++ join sep ps
  end.

(** [s.startswith(old)], and [s.replace(old, new)] for a non-empty [old]:
    the occurrences are taken from the left and do not overlap. *)
Fixpoint startswith (old s : str) : bool :=
  match old, s with
  | [], _ => true
  | a :: old', b :: s' => (a =? b) && startswith old' s'
  | _ :: _, [] => false
  end.

Fixpoint replace_from (old new s : str) (skip : nat) : str :=
  match skip, s with
  | S k, _ :: s' => replace_from old new s' k
  | S _, [] => []
  | O, [] => []
  | O, c :: s' =>
      if startswith old s then new ++ replace_from old new s' (length old - 1)
      else c :: replace_from old new s' O
  end.

Definition replace (old new s : str) : str := replace_from old new s O.

(** ** The fragment of [re] the sanitizer uses *)

Module re.

(** A character set: one literal or the class [\s]. *)
Inductive charset :=
  | LITERAL (c : N)
  | CATEGORY_SPACE.

(** The operators of the three patterns: [^], one character of a set, and
    the greedy repetition [*] of a set. *)
Inductive op :=
  | AT_BEGINNING
  | IN (cs : charset)
  | MAX_REPEAT (cs : charset).

Record pattern := { IGNORECASE : bool; code : list op }.

Definition ascii_lower (c : N) : N :=
  if (65 <=? c) && (c <=? 90) then c + 32 else c.

(** The code points an ASCII literal [c] matches under [re.IGNORECASE]:
    both cases of a letter and, for i, s and k, the four further letters
    the library documents (U+0130, U+0131, U+017F, U+212A). *)
Definition literal_ignore (c x : N) : bool :=
  let lo := ascii_lower c in
  (ascii_lower x =? lo)
  || ((lo =? 105) && ((x =? 304) || (x =? 305)))
  || ((lo =? 115) && (x =? 383))
  || ((lo =? 107) && (x =? 8490)).

Definition in_charset (ignorecase : bool) (cs : charset) (x : N) : bool :=
  match cs with
  | LITERAL c => if ignorecase then literal_ignore c x else (x =? c)
  | CATEGORY_SPACE => isspace x
  end.

(** Greedy repetition with backtracking: take one more character when the
    rest of the pattern still matches after it, else stop here. *)
Fixpoint max_repeat (p : N -> bool) (k : str -> option str) (s : str)
  : option str :=
  match s with
  | c :: s' =>
      if p c then
        match max_repeat p k s' with
        | Some r => Some r
        | None => k s
        end
      else k s
  | [] => k s
  end.

(** The match of [ops] at the head of [s], a suffix of a subject of [n]
    characters; [k] receives what is left of [s] after the match. *)
Fixpoint sre_match (ic : bool) (ops : list op) (n : nat)
    (k : str -> option str) (s : str) : option str :=
  match ops with
  | [] => k s
  | AT_BEGINNING :: ops' =>
      if (length s =? n)%nat then sre_match ic ops' n k s else None
  | IN cs :: ops' =>
      match s with
      | c :: s' => if in_charset ic cs c then sre_match ic ops' n k s' else None
      | [] => None
      end
  | MAX_REPEAT cs :: ops' =>
      max_repeat (in_charset ic cs) (sre_match ic ops' n k) s
  end.

(** One attempt at position [s]: the text after the match.  With
    [must_advance] an empty match is refused. *)
Definition match_at (p : pattern) (n : nat) (must_advance : bool) (s : str)
  : option str :=
  sre_match (IGNORECASE p) (code p) n
    (fun r => if must_advance && (length r =? length s)%nat then None
              else Some r) s.

(** What the substitution loop does at a position no earlier match covers:
    the replacements it emits there and the number of characters the match
    consumes (none: the character at the position is copied).  An empty
    match is replaced, and the search is then repeated at the same position
    for a match that advances. *)
Definition sub_at (p : pattern) (repl : str) (n : nat) (s : str)
  : str * nat :=
  match match_at p n false s with
  | None => ([], O)
  | Some r =>
      match (length s - length r)%nat with
      | S m => (repl, S m)
      | O =>
          match match_at p n true s with
          | Some r2 => (repl ++ repl, (length s - length r2)%nat)
          | None => (repl, O)
          end
      end
  end.

Fixpoint subx (p : pattern) (repl : str) (n : nat) (s : str) (skip : nat)
  : str :=
  match skip, s with
  | S k, _ :: s' => subx p repl n s' k
  | S _, [] => []
  | O, _ =>
      let '(out, m) := sub_at p repl n s in
      out ++ match s with
             | [] => []
             | c :: s' =>
                 match m with
                 | O => c :: subx p repl n s' O
                 | S m' => subx p repl n s' m'
                 end
             end
  end.

(** [re.sub(pattern, repl, string)] for a replacement without group
    references. *)
Definition sub (p : pattern) (repl : str) (string : str) : str :=
  subx p repl (length string) string O.

(** [re.search(pattern, string) is not None]. *)
Fixpoint search_from (p : pattern) (n : nat) (s : str) : bool :=
  match match_at p n false s with
  | Some _ => true
  | None => match s with
            | [] => false
            | _ :: s' => search_from p n s'
            end
  end.

Definition search (p : pattern) (string : str) : bool :=
  search_from p (length string) string.

Definition literals (s : string) : list op :=
  map (fun c => IN (LITERAL c)) (py s).

End re.

(** ** The sanitizer *)

(** [r'^Final Answer:\s*'] with [re.IGNORECASE]. *)
Definition LEADING_LABEL : re.pattern :=
  {| re.IGNORECASE := true;
     re.code := re.AT_BEGINNING :: re.literals "Final Answer:"
                ++ [re.MAX_REPEAT re.CATEGORY_SPACE] |}.

(** [r'\n\s*Final Answer:\s*'] with [re.IGNORECASE]. *)
Definition LINE_LABEL : re.pattern :=
  {| re.IGNORECASE := true;
     re.code := re.IN (re.LITERAL LF) :: re.MAX_REPEAT re.CATEGORY_SPACE
                :: re.literals "Final Answer:"
                ++ [re.MAX_REPEAT re.CATEGORY_SPACE] |}.

(** [r'\[email protected\]'] with [re.IGNORECASE]. *)
Definition PLACEHOLDER : re.pattern :=
  {| re.IGNORECASE := true;
     re.code := re.literals "[email protected]" |}.

Definition CORRECT_EMAIL : str := py "the correct email address".

(** The three rewriting statements of [strip_artifacts]; each rebinds
    [output]. *)
Definition rewrite1 (output : str) : str := strip (re.sub LEADING_LABEL [] output).
Definition rewrite2 (output : str) : str := strip (re.sub LINE_LABEL [LF] output).
Definition rewrite3 (output : str) : str := strip (re.sub PLACEHOLDER CORRECT_EMAIL output).

(** ** Exceptions

    What a Python call does: it returns a value or raises.  Of the raised
    exceptions only the class matters to the handlers of this module:
    [LangChainException] (and its subclasses) or any other [Exception]. *)

Inductive exn :=
  | LangChainException
  | OtherException.

Inductive result (A : Type) :=
  | Ok (a : A)
  | Raise (e : exn).

Arguments Ok {A} a.
Arguments Raise {A} e.

(** An assignment [output = f(output)] whose right-hand side may raise. *)
Definition assign (raises : bool) (f : str -> str) (output : str)
  : result str :=
  if raises then Raise OtherException else Ok (f output).

(** [strip_artifacts(output, query_id, conversation_id)].  [raises i] tells
    whether the [i]-th rewriting statement raises; the handler returns the
    variable [output] as the statements before the failure left it. *)
Definition strip_artifacts (raises : nat -> bool) (output : str)
  : result str :=
  match assign (raises 0%nat) rewrite1 output with
  | Raise _ => Ok output
  | Ok output =>
      match assign (raises 1%nat) rewrite2 output with
      | Raise _ => Ok output
      | Ok output =>
          match assign (raises 2%nat) rewrite3 output with
          | Raise _ => Ok output
          | Ok output => Ok output
          end
      end
  end.

(** No statement of the sanitizer fails: [re.sub] and [str.strip] are total
    on text. *)
Definition no_failure : nat -> bool := fun _ => false.

(** The sanitizer of the specification: the value [strip_artifacts]
    returns when none of its statements fails. *)
Definition sanitize (output : str) : str :=
  match strip_artifacts no_failure output with
  | Ok y => y
  | Raise _ => output
  end.

(** ** Conversation memory *)

(** Modelled from the spec: the class [ConversationBufferWindowMemory] that
    the source imports from the langchain library and whose code is not in
    the repository.  A session is the ordered sequence of exchanges, bounded
    to the most recent [k]: an insertion evicts the oldest exchange once the
    bound is exceeded (sections 3 and 4.1). *)
Record ConversationBufferWindowMemory := {
  k : nat;
  exchanges : list (str * str)
}.

Abbreviation Memory := ConversationBufferWindowMemory.

(** The most recent [n] elements of [l], oldest first. *)
Definition lastn {A} (n : nat) (l : list A) : list A :=
  drop (length l - n)%nat l.

(** Modelled from the spec: [memory.save_context({"question": q},
    {"output": a})], the append of one exchange. *)
Definition save_context (memory : Memory) (q a : str) : Memory :=
  {| k := k memory;
     exchanges := lastn (k memory) (exchanges memory ++ [(q, a)]) |}.

(** Modelled from the spec: [memory.load_memory_variables({})
    ["chat_history"]] with [return_messages=False], the exchanges as
    alternating labelled turns, oldest first. *)
Definition load_memory_variables (memory : Memory) : str :=
  join [LF]
    (flat_map (fun e => [py "Human: " ++ e.1; py "AI: " ++ e.2])
       (exchanges memory)).

(** ** The collaborators of one call

    The retriever, the completion service, the random source and the
    failures of the library calls are outside the module: one [World] fixes
    what they do during one call of [answer_question]. *)

Record Document := { page_content : str }.

(** [retriever.invoke(query)]. *)
Abbreviation Retriever := (str -> result (list Document)).

(** The input of [chain.invoke]. *)
Record ChainInput := {
  domain_instructions : str;
  context : str;
  chat_history : str;
  question : str
}.

Record World := {
  (** the successive [os.urandom(16)] draws, as integers *)
  urandom : nat -> N;
  (** whether the constructor of the memory raises *)
  new_memory_raises : option exn;
  (** [get_retriever()] *)
  get_retriever : result (option Retriever);
  (** whether [memory.load_memory_variables] raises *)
  load_memory_raises : option exn;
  (** whether [get_llm] raises *)
  get_llm_raises : option exn;
  (** [chain.invoke] on the assembled request *)
  chain_invoke : ChainInput -> result str;
  (** which rewriting statements of the sanitizer raise *)
  re_raises : nat -> bool;
  (** whether [memory.save_context] raises *)
  save_context_raises : option exn
}.

Module uuid.

(** [uuid.uuid4()]: sixteen random bytes as a 128-bit integer with the
    variant and the version 4 set. *)
Definition uuid4 (random : N) : N :=
  let int := random mod 2 ^ 128 in
  let int := N.ldiff int (N.shiftl 0xc000 48) in
  let int := N.lor int (N.shiftl 0x8000 48) in
  let int := N.ldiff int (N.shiftl 0xf000 64) in
  N.lor int (N.shiftl 4 76).

Definition hexdigit (d : N) : N := if d <? 10 then 48 + d else 87 + d.

(** ['%032x' % int] for [int] below [2 ^ 128]. *)
Definition hex32 (int : N) : str :=
  map (fun i => hexdigit (N.land (N.shiftr int (4 * N.of_nat (31 - i))) 15))
    (seq 0 32).

(** [str(u)] for a UUID [u]. *)
Definition to_str (int : N) : str :=
  let hex := hex32 int in
  take 8 hex ++ py "-" ++ take 4 (drop 8 hex) ++ py "-"
  ++ take 4 (drop 12 hex) ++ py "-" ++ take 4 (drop 16 hex) ++ py "-"
  ++ drop 20 hex.

End uuid.

(** ** The fixed responses *)

Definition EMPTY_QUERY : str :=
  py "I'm sorry, it seems you didn't provide a question. How can I assist you today?".
Definition RETRIEVER_UNAVAILABLE : str :=
  py "I'm sorry, we're experiencing an issue with our information system. Please try again later or contact support.".
Definition RETRIEVAL_FAILED : str :=
  py "I'm sorry, I couldn't retrieve the necessary information. Please try rephrasing your question or contact our support team.".
Definition CHAIN_FAILED : str :=
  py "I'm sorry, there was an issue processing your request. Please try again or contact support for assistance.".
Definition CHAIN_UNEXPECTED : str :=
  py "An unexpected error occurred. Please try again later or reach out to our support team.".
Definition QUERY_CRITICAL : str :=
  py "We're sorry, an unexpected error occurred. Please try again later or contact our support team for assistance.".
Definition EMPTY_QUESTION : str :=
  py "It looks like you didn't ask a question. How can I help you today?".
Definition MEMORY_SETUP_FAILED : str :=
  py "I'm sorry, there was an issue setting up the conversation. Please try again.".
Definition ANSWER_CRITICAL : str :=
  py "We're sorry, an unexpected error occurred. Please try again or contact support.".

(** ** The history formatter *)

(** [not s] for a [str]. *)
Definition is_empty (s : str) : bool :=
  match s with [] => true | _ :: _ => false end.

(** [format_chat_history(memory, query_id, conversation_id)]. *)
Definition format_chat_history (w : World) (memory : Memory) : str :=
  match load_memory_raises w with
  | Some _ => py "Error accessing chat history."
  | None =>
      let chat_history := load_memory_variables memory in
      if is_empty chat_history then py "No previous conversation history."
      else py "Conversation History:" ++ [LF]
           ++ replace (py "Assistant: ") (py "AI: ")
                (replace (py "Human: ") (py "User: ") chat_history)
  end.

(** ** The query handler *)

(** [try: body except Exception: handler], over a state that a failure
    leaves as it is at the moment of the raise. *)
Definition try_except {A S} (body : result A * S)
    (handler : S -> result A * S) : result A * S :=
  match body with
  | (Raise _, s) => handler s
  | (Ok a, s) => (Ok a, s)
  end.

(** The two statements of the generation block: the chain is built, which
    calls [get_llm], and invoked. *)
Definition generate (w : World) (input : ChainInput) : result str :=
  match get_llm_raises w with
  | Some e => Raise e
  | None => chain_invoke w input
  end.

(** The input the handler assembles for the chain: the non-empty passages
    joined by a blank line, and the formatted history. *)
Definition request (w : World) (DOMAIN_INSTRUCTIONS : str) (input_str : str)
    (docs : list Document) (memory : Memory) : ChainInput :=
  {| domain_instructions := DOMAIN_INSTRUCTIONS;
     context :=
       join [LF; LF]
         (filter (fun c => is_empty c = false) (map page_content docs));
     chat_history := format_chat_history w memory;
     question := input_str |}.

(** [handle_query(input_str, query_id, memory, conversation_id)]; the two
    identifiers only label the log records.  The memory is an object
    shared with the store: the handler returns the state it leaves it in. *)
Definition handle_query (w : World) (DOMAIN_INSTRUCTIONS : str)
    (input_str : str) (memory : Memory) : result str * Memory :=
  try_except
    (if is_empty (strip input_str) then (Ok EMPTY_QUERY, memory)
     else
       match get_retriever w with
       | Raise e => (Raise e, memory)
       | Ok None => (Ok RETRIEVER_UNAVAILABLE, memory)
       | Ok (Some retriever) =>
           match retriever input_str with
           | Raise _ => (Ok RETRIEVAL_FAILED, memory)
           | Ok docs =>
               match generate w
                       (request w DOMAIN_INSTRUCTIONS input_str docs memory) with
               | Raise LangChainException => (Ok CHAIN_FAILED, memory)
               | Raise OtherException => (Ok CHAIN_UNEXPECTED, memory)
               | Ok output =>
                   match strip_artifacts (re_raises w) output with
                   | Raise e => (Raise e, memory)
                   | Ok output =>
                       match save_context_raises w with
                       | Some _ => (Ok output, memory)
                       | None =>
                           (Ok output, save_context memory input_str output)
                       end
                   end
               end
           end
       end)
    (fun memory => (Ok QUERY_CRITICAL, memory)).

(** ** The session facade *)

(** The module globals. *)
Record State := {
  DOMAIN_INSTRUCTIONS : str;
  memories : gmap str Memory
}.

Definition set_memories (st : State) (m : gmap str Memory) : State :=
  {| DOMAIN_INSTRUCTIONS := DOMAIN_INSTRUCTIONS st; memories := m |}.

(** The dictionary [answer_question] returns. *)
Record Answer := { answer : str; conversation_id : str }.

(** [conversation_id or str(uuid.uuid4())]: [None] and the empty string are
    both falsy.  The first draw of the call went to the query identifier. *)
Definition effective_id (w : World) (conversation_id : option str) : str :=
  match conversation_id with
  | Some (c :: cs) => c :: cs
  | Some [] | None => uuid.to_str (uuid.uuid4 (urandom w 1%nat))
  end.

(** [answer_question(user_question, conversation_id)]: the returned
    dictionary or the escaping exception, and the globals after the call. *)
Definition answer_question (w : World) (st : State) (user_question : str)
    (conversation_id : option str) : result Answer * State :=
  let conversation_id := effective_id w conversation_id in
  let reply a := Ok {| answer := a; conversation_id := conversation_id |} in
  try_except
    (if is_empty (strip user_question) then (reply EMPTY_QUESTION, st)
     else
       let created :=
         match memories st !! conversation_id with
         | Some _ => Ok st
         | None =>
             match new_memory_raises w with
             | Some e => Raise e
             | None =>
                 Ok (set_memories st
                       (<[conversation_id := {| k := 5; exchanges := [] |}]>
                          (memories st)))
             end
         end in
       match created with
       | Raise _ => (reply MEMORY_SETUP_FAILED, st)
       | Ok st =>
           match memories st !! conversation_id with
           | None => (Raise OtherException, st)
           | Some memory =>
               let '(output, memory) :=
                 handle_query w (DOMAIN_INSTRUCTIONS st) user_question memory in
               let st :=
                 set_memories st (<[conversation_id := memory]> (memories st)) in
               match output with
               | Raise e => (Raise e, st)
               | Ok output => (reply output, st)
               end
           end
       end)
    (fun st => (reply ANSWER_CRITICAL, st)).

(** A caller's request and the collaborators during it. *)
Record Call := {
  world : World;
  user_question : str;
  supplied_id : option str
}.

(** The calls of a run, one after the other on the same globals: the
    outcomes in order and the globals at the end. *)
Fixpoint run (calls : list Call) (st : State) : list (result Answer) * State :=
  match calls with
  | [] => ([], st)
  | c :: calls' =>
      let '(r, st') :=
        answer_question (world c) st (user_question c) (supplied_id c) in
      let '(rs, st'') := run calls' st' in
      (r :: rs, st'')
  end.

(** ** Notions the properties are stated with *)

(** The characters at the head of [s] belong, one by one, to the sets
    [css]. *)
Fixpoint prefix_match (ic : bool) (css : list re.charset) (s : str) : bool :=
  match css, s with
  | [], _ => true
  | cs :: css', c :: s' => re.in_charset ic cs c && prefix_match ic css' s'
  | _ :: _, [] => false
  end.

(** The thirteen sets of the label [Final Answer:], and a text that begins
    with the label in some spelling of its letters. *)
Definition LABEL_SETS : list re.charset :=
  Eval vm_compute in map re.LITERAL (py "Final Answer:").

Definition is_label (s : str) : bool := prefix_match true LABEL_SETS s.

(** The seventeen sets of the placeholder pattern. *)
Definition PLACEHOLDER_SETS : list re.charset :=
  Eval vm_compute in map re.LITERAL (py "[email protected]").

Definition is_placeholder (s : str) : bool :=
  prefix_match true PLACEHOLDER_SETS s.

(** The exchanges of the session of [id], none when there is no session. *)
Definition session (st : State) (id : str) : list (str * str) :=
  from_option exchanges [] (memories st !! id).

(** The memory a call works on: the session of the conversation, or the
    empty one it creates. *)
Definition memory_for (st : State) (id : str) : Memory :=
  default {| k := 5; exchanges := [] |} (memories st !! id).

(** The globals once the conversation [id] has a session: as they are when
    it has one, else with the empty session added. *)
Definition with_session (st : State) (id : str) : State :=
  set_memories st (<[id := memory_for st id]> (memories st)).

(** The globals when the module is loaded, and worlds to run examples in:
    one in which every collaborator works, the retriever returning no
    passage and the completion service the text [out], and the same world
    with one part changed. *)
Definition boot : State := {| DOMAIN_INSTRUCTIONS := []; memories := ∅ |}.

Definition working (out : str) : World :=
  {| urandom := fun _ => 0;
     new_memory_raises := None;
     get_retriever := Ok (Some (fun _ => Ok []));
     load_memory_raises := None;
     get_llm_raises := None;
     chain_invoke := fun _ => Ok out;
     re_raises := no_failure;
     save_context_raises := None |}.

Definition with_retriever (r : result (option Retriever)) (w : World) : World :=
  {| urandom := urandom w;
     new_memory_raises := new_memory_raises w;
     get_retriever := r;
     load_memory_raises := load_memory_raises w;
     get_llm_raises := get_llm_raises w;
     chain_invoke := chain_invoke w;
     re_raises := re_raises w;
     save_context_raises := save_context_raises w |}.

Definition with_chain (c : ChainInput -> result str) (w : World) : World :=
  {| urandom := urandom w;
     new_memory_raises := new_memory_raises w;
     get_retriever := get_retriever w;
     load_memory_raises := load_memory_raises w;
     get_llm_raises := get_llm_raises w;
     chain_invoke := c;
     re_raises := re_raises w;
     save_context_raises := save_context_raises w |}.

(** The world in which every stage fails. *)
Definition broken : World :=
  {| urandom := fun _ => 0;
     new_memory_raises := Some OtherException;
     get_retriever := Raise OtherException;
     load_memory_raises := Some OtherException;
     get_llm_raises := Some OtherException;
     chain_invoke := fun _ => Raise LangChainException;
     re_raises := fun _ => true;
     save_context_raises := Some OtherException |}.

(** The text of a reply. *)
Definition reply_text (r : result Answer) : str :=
  match r with
  | Ok a => answer a
  | Raise _ => []
  end.

(** The questions of the calls paired with the replies they received. *)
Definition exchanged (calls : list Call) (rs : list (result Answer))
  : list (str * str) :=
  zip (map user_question calls) (map reply_text rs).

(** Every stage of the call works for the question [q]: the memory can be
    built, the retriever is there and returns passages, the completion
    service returns a text and the exchange can be saved. *)
Definition successful (w : World) (q : str) : Prop :=
  new_memory_raises w = None
  /\ (exists retriever docs,
        get_retriever w = Ok (Some retriever) /\ retriever q = Ok docs)
  /\ (forall input, exists out, generate w input = Ok out)
  /\ save_context_raises w = None.

(** The calls of [calls] are successful exchanges on the conversation
    [id]. *)
Definition exchanges_on (id : str) (calls : list Call) : Prop :=
  Forall (fun c => supplied_id c = Some id
                   /\ is_empty (strip (user_question c)) = false
                   /\ successful (world c) (user_question c)) calls.

(** A call on the conversation [id] in a world in which every collaborator
    works and the completion service answers [out]; six such calls. *)
Definition ask (id q out : string) : Call :=
  {| world := working (py out);
     user_question := py q;
     supplied_id := Some (py id) |}.

Definition six_calls : list Call :=
  [ask "c1" "q1" "a1"; ask "c1" "q2" "a2"; ask "c1" "q3" "a3";
   ask "c1" "q4" "a4"; ask "c1" "q5" "a5"; ask "c1" "q6" "a6"].

(** The fixed responses to a failure. *)
Definition APOLOGIES : list str :=
  [MEMORY_SETUP_FAILED; RETRIEVER_UNAVAILABLE; RETRIEVAL_FAILED; CHAIN_FAILED;
   CHAIN_UNEXPECTED; QUERY_CRITICAL; ANSWER_CRITICAL].

(** Every session holds at most five exchanges and was built with [k=5]. *)
Definition bounded (st : State) : Prop :=
  map_Forall (fun _ m => k m = 5%nat /\ (length (exchanges m) <= 5)%nat)
    (memories st).

(** ** The language model client *)

(** The client [ChatOpenAI(model=..., temperature=..., api_key=...)]; the
    temperature [0.2] is the decimal 2 * 10^-1. *)
Record ChatOpenAI := {
  model : str;
  temperature : N * nat;
  api_key : str
}.

(** [get_llm(query_id, conversation_id)].  [OPENAI_API_KEY] is what
    [os.getenv] gave when the module was loaded, [None] or a text;
    [constructor_raises] tells whether building the client raises, and the
    handler raises that exception again. *)
Definition get_llm (OPENAI_API_KEY : option str)
    (constructor_raises : option exn) : result ChatOpenAI :=
  match OPENAI_API_KEY with
  | None | Some [] => Raise OtherException
  | Some (c :: key) =>
      match constructor_raises with
      | Some e => Raise e
      | None =>
          Ok {| model := py "gpt-4o"; temperature := (2, 1%nat);
                api_key := c :: key |}
      end
  end.

(** What the call of [get_llm] in the handler contributes to a world: the
    exception it raises, if any. *)
Definition raised {A} (r : result A) : option exn :=
  match r with
  | Ok _ => None
  | Raise e => Some e
  end.

Definition with_llm (r : result ChatOpenAI) (w : World) : World :=
  {| urandom := urandom w;
     new_memory_raises := new_memory_raises w;
     get_retriever := get_retriever w;
     load_memory_raises := load_memory_raises w;
     get_llm_raises := raised r;
     chain_invoke := chain_invoke w;
     re_raises := re_raises w;
     save_context_raises := save_context_raises w |}.

Definition with_memory_constructor (r : option exn) (w : World) : World :=
  {| urandom := urandom w;
     new_memory_raises := r;
     get_retriever := get_retriever w;
     load_memory_raises := load_memory_raises w;
     get_llm_raises := get_llm_raises w;
     chain_invoke := chain_invoke w;
     re_raises := re_raises w;
     save_context_raises := save_context_raises w |}.

Definition with_save (r : option exn) (w : World) : World :=
  {| urandom := urandom w;
     new_memory_raises := new_memory_raises w;
     get_retriever := get_retriever w;
     load_memory_raises := load_memory_raises w;
     get_llm_raises := get_llm_raises w;
     chain_invoke := chain_invoke w;
     re_raises := re_raises w;
     save_context_raises := r |}.

(** ** Further notions *)

(** [old in s]. *)
Fixpoint contains (old s : str) : bool :=
  startswith old s
  || match s with
     | [] => false
     | _ :: s' => contains old s'
     end.

(** Two texts agree as far as both go. *)
Fixpoint compatible (a b : str) : bool :=
  match a, b with
  | x :: a', y :: b' => (x =? y) && compatible a' b'
  | _, _ => true
  end.

(** No occurrence of [pat] can run into a copy of [new] or begin in one:
    laid at any offset of the other, the two texts disagree. *)
Definition apart (pat new : str) : bool :=
  forallb (fun j => negb (compatible (drop j pat) new)) (seq 0 (length pat))
  && forallb (fun i => negb (compatible pat (drop i new))) (seq 0 (length new)).

(** The turns of a history: for each exchange, oldest first, a line with
    the question after the label [human] and a line with the answer after
    the label [ai]. *)
Definition turns (human ai : str) (exs : list (str * str)) : str :=
  join [LF] (flat_map (fun e => [human ++ e.1; ai ++ e.2]) exs).

(** A text that holds neither of the labels the formatter rewrites. *)
Definition plain (t : str) : bool :=
  negb (contains (py "Human: ") t) && negb (contains (py "Assistant: ") t).

(** No occurrence of [pat] can run from the text before [Y] into [Y]:
    [Y] is empty or begins with a character that [pat] does not have. *)
Definition blocks (pat Y : str) : bool :=
  match Y with
  | [] => true
  | c :: _ => forallb (fun x => negb (x =? c)) pat
  end.

(** The passages the handler joins into the context of a request. *)
Definition passages (docs : list Document) : list str :=
  filter (fun c => is_empty c = false) (map page_content docs).

(** The conversation a call belongs to, the calls of a run that belong to
    the conversation [id], and the outcomes these calls received. *)
Definition conversation (c : Call) : str :=
  effective_id (world c) (supplied_id c).

Definition calls_on (id : str) (calls : list Call) : list Call :=
  filter (fun c => conversation c = id) calls.

Fixpoint outcomes_on (id : str) (calls : list Call)
    (rs : list (result Answer)) : list (result Answer) :=
  match calls, rs with
  | c :: calls', r :: rs' =>
      if decide (conversation c = id) then r :: outcomes_on id calls' rs'
      else outcomes_on id calls' rs'
  | _, _ => []
  end.

(** * Properties *)

(** ** Text *)

Section Strip.

Lemma lstrip_head s : from_option isspace false (head (lstrip s)) = false.
Proof.
  induction s as [|c s IH]; simpl; [reflexivity|].
  destruct (isspace c) eqn:E; simpl; auto.
Qed.

Lemma lstrip_fixed s :
  from_option isspace false (head s) = false -> lstrip s = s.
Proof. destruct s as [|c s]; simpl; [reflexivity|]. intros ->. reflexivity. Qed.

Lemma lstrip_suffix s : exists w, s = w ++ lstrip s.
Proof.
  induction s as [|c s [w IH]]; simpl.
  - exists []. reflexivity.
  - destruct (isspace c).
    + exists (c :: w). simpl. congruence.
    + exists []. reflexivity.
Qed.

Lemma rstrip_prefix s : exists w, s = rstrip s ++ w.
Proof.
  unfold rstrip. destruct (lstrip_suffix (rev s)) as [w Hw].
  exists (rev w). rewrite <- rev_app_distr, <- Hw, rev_involutive. reflexivity.
Qed.

Lemma last_rev (s : str) : last (rev s) = head s.
Proof. destruct s as [|c s]; simpl; [reflexivity|]. apply last_snoc. Qed.

Lemma head_rev (s : str) : head (rev s) = last s.
Proof. rewrite <- (rev_involutive s) at 2. symmetry. apply last_rev. Qed.

Lemma rstrip_last s : from_option isspace false (last (rstrip s)) = false.
Proof. unfold rstrip. rewrite last_rev. apply lstrip_head. Qed.

Lemma rstrip_fixed s :
  from_option isspace false (last s) = false -> rstrip s = s.
Proof.
  intros H. unfold rstrip. rewrite lstrip_fixed, rev_involutive; [reflexivity|].
  rewrite head_rev. exact H.
Qed.

Lemma rstrip_head s :
  from_option isspace false (head s) = false ->
  from_option isspace false (head (rstrip s)) = false.
Proof.
  intros H. destruct (rstrip_prefix s) as [w Hw].
  destruct (rstrip s) as [|c t] eqn:E; [reflexivity|].
  rewrite Hw in H. exact H.
Qed.

Lemma strip_head s : from_option isspace false (head (strip s)) = false.
Proof. apply rstrip_head, lstrip_head. Qed.

Lemma strip_last s : from_option isspace false (last (strip s)) = false.
Proof. apply rstrip_last. Qed.

Lemma strip_fixed s :
  from_option isspace false (head s) = false ->
  from_option isspace false (last s) = false -> strip s = s.
Proof.
  intros Hh Hl. unfold strip. rewrite (lstrip_fixed s Hh). apply rstrip_fixed, Hl.
Qed.

Lemma strip_strip s : strip (strip s) = strip s.
Proof. apply strip_fixed; [apply strip_head | apply strip_last]. Qed.

End Strip.

(** ** Matching and substitution *)

Section Matching.

(** A text no position of which matches is left as it is. *)
Lemma subx_no_match p repl n s :
  re.search_from p n s = false -> re.subx p repl n s O = s.
Proof.
  induction s as [|c s IH]; simpl; unfold re.sub_at;
    destruct (re.match_at p n false _); try discriminate; simpl.
  - reflexivity.
  - intros H. rewrite (IH H). reflexivity.
Qed.

Lemma sub_no_match p repl s : re.search p s = false -> re.sub p repl s = s.
Proof. apply subx_no_match. Qed.

Lemma sre_match_literals ic css ops n k s :
  re.sre_match ic (map re.IN css ++ ops) n k s =
  if prefix_match ic css s
  then re.sre_match ic ops n k (drop (length css) s)
  else None.
Proof.
  revert s. induction css as [|cs css IH]; intros s; simpl.
  - reflexivity.
  - destruct s as [|c s]; simpl; [reflexivity|].
    destruct (re.in_charset ic cs c); simpl; [apply IH | reflexivity].
Qed.

Lemma prefix_match_length ic css s :
  prefix_match ic css s = true -> (length css <= length s)%nat.
Proof.
  revert s. induction css as [|cs css IH]; intros [|c s]; simpl;
    try discriminate; try lia.
  intros [_ H]%andb_prop. apply IH in H. lia.
Qed.

Lemma prefix_match_app ic css s t :
  prefix_match ic css s = true -> prefix_match ic css (s ++ t) = true.
Proof.
  revert s. induction css as [|cs css IH]; intros [|c s]; simpl;
    try discriminate; try reflexivity.
  intros [-> H]%andb_prop. simpl. apply IH, H.
Qed.

Lemma prefix_match_long ic css s t t' :
  (length css <= length s)%nat ->
  prefix_match ic css (s ++ t) = prefix_match ic css (s ++ t').
Proof.
  revert s. induction css as [|cs css IH]; intros [|c s]; simpl;
    try reflexivity; try lia.
  intros H. rewrite (IH s) by lia. reflexivity.
Qed.

Lemma prefix_match_lookup ic css s i cs :
  prefix_match ic css s = true -> css !! i = Some cs ->
  exists c, s !! i = Some c /\ re.in_charset ic cs c = true.
Proof.
  revert s i. induction css as [|cs' css IH]; intros [|c s] i; simpl;
    try discriminate.
  intros [Hc H]%andb_prop. destruct i as [|i]; simpl.
  - intros [= <-]. exists c. auto.
  - apply IH, H.
Qed.

Lemma isspace_true c :
  isspace c = true <->
  (9 <= c /\ c <= 13) \/ (28 <= c /\ c <= 32) \/ c = 133 \/ c = 160
  \/ c = 5760 \/ (8192 <= c /\ c <= 8202) \/ c = 8232 \/ c = 8233
  \/ c = 8239 \/ c = 8287 \/ c = 12288.
Proof.
  unfold isspace.
  rewrite !orb_true_iff, !andb_true_iff, !N.leb_le, !N.eqb_eq. tauto.
Qed.

Lemma ascii_lower_cases x :
  (65 <= x /\ x <= 90 /\ re.ascii_lower x = x + 32)
  \/ ((x < 65 \/ 90 < x) /\ re.ascii_lower x = x).
Proof.
  unfold re.ascii_lower.
  destruct (N.leb_spec 65 x), (N.leb_spec x 90); simpl; lia.
Qed.

Lemma literal_ignore_true c x :
  re.literal_ignore c x = true <->
  re.ascii_lower x = re.ascii_lower c
  \/ (re.ascii_lower c = 105 /\ (x = 304 \/ x = 305))
  \/ (re.ascii_lower c = 115 /\ x = 383)
  \/ (re.ascii_lower c = 107 /\ x = 8490).
Proof.
  unfold re.literal_ignore. cbv zeta.
  rewrite !orb_true_iff, !andb_true_iff, !orb_true_iff, !N.eqb_eq. tauto.
Qed.

(** Outside the letters a literal matches itself only, also when case is
    ignored. *)
Lemma literal_ignore_exact c x :
  c < 65 \/ (90 < c /\ c < 97) \/ (122 < c /\ c < 128) ->
  re.literal_ignore c x = true -> x = c.
Proof.
  intros Hc H%literal_ignore_true.
  destruct (ascii_lower_cases c), (ascii_lower_cases x); lia.
Qed.

(** A literal that is no white space matches no white space, also when
    case is ignored. *)
Lemma literal_ignore_space c x :
  c < 128 -> isspace c = false -> re.literal_ignore c x = true ->
  isspace x = false.
Proof.
  intros Hc Hs H%literal_ignore_true.
  destruct (isspace x) eqn:Hx; [|reflexivity].
  apply isspace_true in Hx.
  assert (~ isspace c = true) as Hn by (rewrite Hs; discriminate).
  rewrite isspace_true in Hn.
  destruct (ascii_lower_cases c), (ascii_lower_cases x); lia.
Qed.

End Matching.

(** ** The placeholder pattern *)

Section Placeholder.

Lemma match_at_placeholder n s :
  re.match_at PLACEHOLDER n false s =
  if is_placeholder s then Some (drop 17 s) else None.
Proof.
  unfold re.match_at.
  change (re.code PLACEHOLDER) with (map re.IN PLACEHOLDER_SETS ++ []).
  rewrite sre_match_literals. reflexivity.
Qed.

Lemma sub_at_placeholder repl n s :
  re.sub_at PLACEHOLDER repl n s =
  if is_placeholder s then (repl, 17%nat) else ([], O).
Proof.
  unfold re.sub_at. rewrite match_at_placeholder.
  destruct (is_placeholder s) eqn:E; [|reflexivity].
  apply prefix_match_length in E. change (length PLACEHOLDER_SETS) with 17%nat in E.
  rewrite length_drop.
  replace (length s - (length s - 17))%nat with 17%nat by lia. reflexivity.
Qed.

Lemma search_from_placeholder n s :
  re.search_from PLACEHOLDER n s =
  is_placeholder s
  || match s with [] => false | _ :: s' => re.search_from PLACEHOLDER n s' end.
Proof.
  destruct s; cbn [re.search_from]; rewrite match_at_placeholder;
    destruct (is_placeholder _); reflexivity.
Qed.

Lemma search_from_placeholder_cons n c s :
  re.search_from PLACEHOLDER n (c :: s) =
  is_placeholder (c :: s) || re.search_from PLACEHOLDER n s.
Proof. apply search_from_placeholder. Qed.

(** An occurrence has [[] at its head and []] as its seventeenth
    character. *)
Lemma is_placeholder_head c s : is_placeholder (c :: s) = true -> c = 91.
Proof.
  unfold is_placeholder. cbn [PLACEHOLDER_SETS prefix_match].
  intros [H _]%andb_prop. apply literal_ignore_exact in H; [exact H | lia].
Qed.

Lemma is_placeholder_last s : is_placeholder s = true -> s !! 16%nat = Some 93.
Proof.
  intros H.
  destruct (prefix_match_lookup true PLACEHOLDER_SETS s 16 (re.LITERAL 93) H eq_refl)
    as (c & Hc & Hin).
  rewrite Hc. f_equal. apply literal_ignore_exact in Hin; [exact Hin | lia].
Qed.

(** The substitute phrase has no bracket. *)
Lemma CORRECT_EMAIL_brackets :
  Forall (fun c => c <> 91 /\ c <> 93) CORRECT_EMAIL.
Proof. repeat constructor; discriminate. Qed.

(** A head of fewer than seventeen characters followed by the substitute
    phrase is no occurrence. *)
Lemma is_placeholder_across u t :
  (length u < 17)%nat -> is_placeholder (u ++ CORRECT_EMAIL ++ t) = false.
Proof.
  intros Hu. destruct (is_placeholder _) eqn:E; [|reflexivity].
  apply is_placeholder_last in E.
  rewrite lookup_app_r in E by lia.
  rewrite lookup_app_l in E by (change (length CORRECT_EMAIL) with 25%nat; lia).
  apply list_elem_of_lookup_2 in E.
  pose proof CORRECT_EMAIL_brackets as F. rewrite Forall_forall in F.
  apply F in E. tauto.
Qed.

(** The substitution does not complete an occurrence that the text before
    it began. *)
Lemma placeholder_not_created n s : forall u,
  is_placeholder (u ++ re.subx PLACEHOLDER CORRECT_EMAIL n s O) = true ->
  is_placeholder (u ++ s) = true.
Proof.
  induction s as [|c s IH]; intros u; cbn [re.subx];
    rewrite sub_at_placeholder.
  - simpl. auto.
  - destruct (is_placeholder (c :: s)) eqn:E.
    + destruct (Nat.lt_ge_cases (length u) 17) as [Hu|Hu].
      * cbv beta iota zeta. rewrite is_placeholder_across by exact Hu. discriminate.
      * unfold is_placeholder. cbv beta iota zeta.
        rewrite (prefix_match_long true PLACEHOLDER_SETS u _ (c :: s)) by exact Hu.
        auto.
    + cbv beta iota zeta. simpl app. intros H.
      replace (u ++ c :: s) with ((u ++ [c]) ++ s) by (rewrite <- app_assoc; reflexivity).
      apply IH. rewrite <- app_assoc. exact H.
Qed.

Lemma search_from_no_bracket n u t :
  Forall (fun c => c <> 91 /\ c <> 93) u ->
  re.search_from PLACEHOLDER n (u ++ t) = re.search_from PLACEHOLDER n t.
Proof.
  induction 1 as [|c u [Hc _] _ IH]; [reflexivity|].
  simpl app. rewrite search_from_placeholder_cons, IH.
  destruct (is_placeholder _) eqn:E; [|reflexivity].
  apply is_placeholder_head in E. contradiction.
Qed.

(** After the substitution no occurrence is left. *)
Lemma subx_placeholder_gone n n' s : forall skip,
  re.search_from PLACEHOLDER n' (re.subx PLACEHOLDER CORRECT_EMAIL n s skip) = false.
Proof.
  induction s as [|c s IH]; intros [|skip]; cbn [re.subx];
    try rewrite sub_at_placeholder; try reflexivity.
  - destruct (is_placeholder (c :: s)) eqn:E.
    + cbv beta iota zeta.
      rewrite search_from_no_bracket by apply CORRECT_EMAIL_brackets. apply IH.
    + cbv beta iota zeta. simpl app. rewrite search_from_placeholder_cons, IH.
      destruct (is_placeholder (c :: re.subx _ _ _ _ _)) eqn:E'; [|reflexivity].
      apply (placeholder_not_created n s [c]) in E'. simpl in E'. congruence.
  - apply IH.
Qed.

Lemma search_from_lstrip n s :
  re.search_from PLACEHOLDER n s = false ->
  re.search_from PLACEHOLDER n (lstrip s) = false.
Proof.
  induction s as [|c s IH]; [auto|].
  intros H. simpl lstrip. destruct (isspace c); [|exact H].
  rewrite search_from_placeholder_cons in H. apply orb_false_elim in H as [_ H]. auto.
Qed.

Lemma search_from_prefix n s t :
  re.search_from PLACEHOLDER n (s ++ t) = false ->
  re.search_from PLACEHOLDER n s = false.
Proof.
  induction s as [|c s IH]; [reflexivity|].
  simpl app. rewrite !search_from_placeholder_cons.
  intros [H1 H2]%orb_false_elim. rewrite (IH H2), orb_false_r.
  destruct (is_placeholder (c :: s)) eqn:E; [|reflexivity].
  apply (prefix_match_app _ _ _ t) in E. simpl app in E.
  unfold is_placeholder in H1. congruence.
Qed.

Lemma search_from_strip n s :
  re.search_from PLACEHOLDER n s = false ->
  re.search_from PLACEHOLDER n (strip s) = false.
Proof.
  intros H. apply search_from_lstrip in H. unfold strip.
  destruct (rstrip_prefix (lstrip s)) as [w Hw]. rewrite Hw in H.
  apply search_from_prefix in H. exact H.
Qed.

Lemma search_from_placeholder_any n n' s :
  re.search_from PLACEHOLDER n s = re.search_from PLACEHOLDER n' s.
Proof.
  induction s as [|c s IH].
  - rewrite (search_from_placeholder n), (search_from_placeholder n'). reflexivity.
  - rewrite !search_from_placeholder_cons, IH. reflexivity.
Qed.

Lemma subx_placeholder_any (R : str) n n' s : forall skip,
  re.subx PLACEHOLDER R n s skip = re.subx PLACEHOLDER R n' s skip.
Proof.
  induction s as [|c s IH]; intros [|skip]; cbn [re.subx];
    rewrite ?sub_at_placeholder; try reflexivity.
  - destruct (is_placeholder (c :: s)); rewrite IH; reflexivity.
  - apply IH.
Qed.

(** The third statement leaves no occurrence of the placeholder. *)
Lemma rewrite3_placeholder_gone s : re.search PLACEHOLDER (rewrite3 s) = false.
Proof.
  unfold re.search, rewrite3, re.sub.
  apply search_from_strip, subx_placeholder_gone.
Qed.

End Placeholder.

(** ** What the three statements do *)

Section Statements.

Lemma subx_skip p repl n s : forall skip,
  (skip <= length s)%nat ->
  re.subx p repl n s skip = re.subx p repl n (drop skip s) O.
Proof.
  induction s as [|c s IH]; intros [|skip] H; try reflexivity.
  - simpl in H. lia.
  - cbn [re.subx drop]. apply IH. simpl in H. lia.
Qed.

Lemma max_repeat_space s :
  re.max_repeat isspace (fun r => Some r) s = Some (lstrip s).
Proof.
  induction s as [|c s IH]; simpl; [reflexivity|].
  destruct (isspace c); [rewrite IH|]; reflexivity.
Qed.

Lemma lstrip_lstrip s : lstrip (lstrip s) = lstrip s.
Proof. apply lstrip_fixed, lstrip_head. Qed.

Lemma lstrip_length s : (length (lstrip s) <= length s)%nat.
Proof.
  destruct (lstrip_suffix s) as [w Hw]. rewrite Hw at 2.
  rewrite length_app. lia.
Qed.

Lemma drop_suffix (s r w : str) :
  s = w ++ r -> drop (length s - length r) s = r.
Proof.
  intros ->. rewrite length_app.
  replace (length w + length r - length r)%nat with (length w) by lia.
  apply drop_app_length.
Qed.

(** The first pattern matches at the beginning of the subject only, when
    the label stands there; the match extends over the white space after
    the label. *)
Lemma match_at_leading n s :
  re.match_at LEADING_LABEL n false s =
  if (length s =? n)%nat && is_label s then Some (lstrip (drop 13 s))
  else None.
Proof.
  unfold re.match_at.
  change (re.code LEADING_LABEL)
    with (re.AT_BEGINNING
          :: (map re.IN LABEL_SETS ++ [re.MAX_REPEAT re.CATEGORY_SPACE])).
  change (re.IGNORECASE LEADING_LABEL) with true.
  cbn [re.sre_match]. destruct (length s =? n)%nat; [|reflexivity].
  rewrite sre_match_literals. fold (is_label s).
  destruct (is_label s); [|reflexivity].
  cbn [re.sre_match andb]. apply max_repeat_space.
Qed.

Lemma search_from_leading_short n s :
  (length s < n)%nat -> re.search_from LEADING_LABEL n s = false.
Proof.
  induction s as [|c s IH]; intros H; cbn [re.search_from];
    rewrite match_at_leading;
    (replace (length _ =? n)%nat with false
       by (symmetry; apply Nat.eqb_neq; lia)); [reflexivity|].
  apply IH. simpl in H. lia.
Qed.

(** The first substitution: a leading label goes with the white space
    after it, and nothing else changes. *)
Lemma sub_leading s :
  re.sub LEADING_LABEL [] s = if is_label s then lstrip (drop 13 s) else s.
Proof.
  unfold re.sub. destruct s as [|c s].
  - reflexivity.
  - cbn [re.subx]. unfold re.sub_at. rewrite match_at_leading.
    rewrite Nat.eqb_refl. cbn [andb].
    destruct (is_label (c :: s)) eqn:E.
    + set (r := lstrip (drop 13 (c :: s))).
      assert (exists w, c :: s = w ++ r) as [w Hw].
      { destruct (lstrip_suffix (drop 13 (c :: s))) as [w Hw].
        exists (take 13 (c :: s) ++ w).
        rewrite <- app_assoc. fold r in Hw. rewrite <- Hw, take_drop.
        reflexivity. }
      assert (length r + 13 <= length (c :: s))%nat as Hr.
      { apply prefix_match_length in E.
        change (length LABEL_SETS) with 13%nat in E.
        pose proof (lstrip_length (drop 13 (c :: s))) as L. fold r in L.
        rewrite length_drop in L. lia. }
      pose proof (drop_suffix (c :: s) r w Hw) as Hd.
      destruct (length (c :: s) - length r)%nat as [|m] eqn:Em; [lia|].
      cbn [app]. rewrite subx_skip by (simpl in Em; lia).
      cbn [drop] in Hd. rewrite Hd.
      apply subx_no_match, search_from_leading_short. lia.
    + cbn [app]. f_equal.
      apply subx_no_match, search_from_leading_short. simpl. lia.
Qed.

(** Part (a) of the contract of the sanitizer: of a text that begins with
    the label, in any spelling of its letters, the first statement keeps
    what follows the label, stripped; any other text it only strips. *)
Lemma rewrite1_label l rest :
  is_label l = true -> length l = 13%nat ->
  rewrite1 (l ++ rest) = strip rest.
Proof.
  intros Hl Hn. unfold rewrite1. rewrite sub_leading.
  unfold is_label in *. rewrite (prefix_match_app _ _ _ rest Hl).
  rewrite <- Hn, drop_app_length. unfold strip. rewrite lstrip_lstrip.
  reflexivity.
Qed.

Lemma rewrite1_no_label s : is_label s = false -> rewrite1 s = strip s.
Proof. intros H. unfold rewrite1. rewrite sub_leading, H. reflexivity. Qed.

(** The label begins with a letter, and no white space matches it. *)
Lemma is_label_head c s : is_label (c :: s) = true -> isspace c = false.
Proof.
  unfold is_label. cbn [LABEL_SETS prefix_match re.in_charset].
  intros [H _]%andb_prop. apply (literal_ignore_space 70); [lia | reflexivity | exact H].
Qed.

Lemma is_label_lstrip s : is_label s = true -> lstrip s = s.
Proof.
  intros H. apply lstrip_fixed. destruct s as [|c s]; [reflexivity|].
  simpl. apply (is_label_head c s H).
Qed.

Lemma lstrip_space_app ws s :
  forallb isspace ws = true -> lstrip (ws ++ s) = lstrip s.
Proof.
  induction ws as [|c ws IH]; simpl; [reflexivity|].
  intros [-> H]%andb_prop. auto.
Qed.

Lemma lstrip_app_nonempty s t :
  lstrip s <> [] -> lstrip (s ++ t) = lstrip s ++ t.
Proof.
  induction s as [|c s IH]; simpl; [contradiction|].
  destruct (isspace c); auto.
Qed.

(** The repetition of white space before a pattern that no white space
    begins: it takes all the white space there is. *)
Lemma max_repeat_space_then k s :
  (forall c t, isspace c = true -> k (c :: t) = None) ->
  re.max_repeat isspace k s = k (lstrip s).
Proof.
  intros Hk. induction s as [|c s IH]; simpl; [reflexivity|].
  destruct (isspace c) eqn:E; [|reflexivity].
  rewrite IH. destruct (k (lstrip s)) eqn:F; [reflexivity|].
  apply Hk, E.
Qed.

Lemma literal_ignore_LF c : re.literal_ignore LF c = (c =? LF).
Proof.
  destruct (N.eqb_spec c LF) as [->|Hne]; [reflexivity|].
  destruct (re.literal_ignore LF c) eqn:E; [|reflexivity].
  apply literal_ignore_exact in E; [contradiction | unfold LF; lia].
Qed.

(** The second pattern matches at a line feed after which, white space
    skipped, the label stands; the match extends over the white space after
    the label. *)
Lemma match_at_line n s :
  re.match_at LINE_LABEL n false s =
  match s with
  | c :: t =>
      if (c =? LF) && is_label (lstrip t)
      then Some (lstrip (drop 13 (lstrip t)))
      else None
  | [] => None
  end.
Proof.
  unfold re.match_at.
  change (re.code LINE_LABEL)
    with (re.IN (re.LITERAL LF) :: re.MAX_REPEAT re.CATEGORY_SPACE
          :: (map re.IN LABEL_SETS ++ [re.MAX_REPEAT re.CATEGORY_SPACE])).
  change (re.IGNORECASE LINE_LABEL) with true.
  destruct s as [|c t]; [reflexivity|].
  cbn [re.sre_match re.in_charset]. rewrite literal_ignore_LF.
  destruct (c =? LF); [|reflexivity]. cbn [andb].
  change (re.max_repeat (re.in_charset true re.CATEGORY_SPACE))
    with (re.max_repeat isspace).
  rewrite max_repeat_space_then.
  - rewrite sre_match_literals. fold (is_label (lstrip t)).
    destruct (is_label (lstrip t)); [|reflexivity].
    cbn [re.sre_match re.in_charset].
    change (re.max_repeat (re.in_charset true re.CATEGORY_SPACE))
      with (re.max_repeat isspace).
    apply max_repeat_space.
  - intros c' t' Hc. rewrite sre_match_literals.
    fold (is_label (c' :: t')).
    destruct (is_label (c' :: t')) eqn:E; [|reflexivity].
    apply is_label_head in E. congruence.
Qed.

Lemma search_from_line_cons n c s :
  re.search_from LINE_LABEL n (c :: s) =
  ((c =? LF) && is_label (lstrip s)) || re.search_from LINE_LABEL n s.
Proof.
  cbn [re.search_from]. rewrite match_at_line.
  destruct ((c =? LF) && is_label (lstrip s)); reflexivity.
Qed.

Lemma search_from_line_any n n' s :
  re.search_from LINE_LABEL n s = re.search_from LINE_LABEL n' s.
Proof.
  induction s as [|c s IH]; [reflexivity|].
  rewrite !search_from_line_cons, IH. reflexivity.
Qed.

Lemma sub_at_line n (R s : str) :
  re.sub_at LINE_LABEL R n s =
  match s with
  | c :: t =>
      if (c =? LF) && is_label (lstrip t)
      then (R, (length s - length (lstrip (drop 13 (lstrip t))))%nat)
      else ([], O)
  | [] => ([], O)
  end.
Proof.
  unfold re.sub_at. rewrite match_at_line.
  destruct s as [|c t]; [reflexivity|].
  destruct ((c =? LF) && is_label (lstrip t)) eqn:E; [|reflexivity].
  pose proof (lstrip_length (drop 13 (lstrip t))) as L1.
  pose proof (lstrip_length t) as L2.
  rewrite length_drop in L1.
  destruct (length (c :: t) - length (lstrip (drop 13 (lstrip t))))%nat
    eqn:Em; [simpl in Em; lia | reflexivity].
Qed.

Lemma subx_line_any (R : str) n n' s : forall skip,
  re.subx LINE_LABEL R n s skip = re.subx LINE_LABEL R n' s skip.
Proof.
  induction s as [|c s IH]; intros [|skip]; cbn [re.subx];
    rewrite ?sub_at_line; try reflexivity.
  - destruct ((c =? LF) && is_label (lstrip s)).
    + destruct (length (c :: s) - _)%nat; rewrite IH; reflexivity.
    + rewrite IH. reflexivity.
  - apply IH.
Qed.

(** X18: part (b) of the contract of the sanitizer, at the first line break
    of a text: the label that begins the second line goes, with the white
    space around it, and a line feed stays. *)
Lemma sub_line_first pre ws l rest :
  Forall (fun c => c <> LF) pre -> forallb isspace ws = true ->
  is_label l = true -> length l = 13%nat ->
  re.sub LINE_LABEL [LF] (pre ++ LF :: ws ++ l ++ rest)
  = pre ++ LF :: re.sub LINE_LABEL [LF] (lstrip rest).
Proof.
  intros Hpre Hws Hl Hn. unfold re.sub.
  rewrite (subx_line_any [LF] (length (lstrip rest))
             (length (pre ++ LF :: ws ++ l ++ rest))).
  generalize (length (pre ++ LF :: ws ++ l ++ rest)). intros n.
  induction Hpre as [|c pre Hc _ IH].
  - cbn [app re.subx]. rewrite sub_at_line.
    assert (lstrip (ws ++ l ++ rest) = l ++ rest) as E.
    { rewrite lstrip_space_app by exact Hws. apply is_label_lstrip.
      apply prefix_match_app, Hl. }
    rewrite E. unfold is_label in *.
    rewrite (prefix_match_app _ _ _ rest Hl), N.eqb_refl. cbn [andb].
    rewrite <- Hn, drop_app_length.
    assert (exists w, LF :: ws ++ l ++ rest = w ++ lstrip rest) as [w Hw].
    { destruct (lstrip_suffix rest) as [w Hw].
      exists (LF :: ws ++ l ++ w). rewrite Hw at 1.
      simpl. rewrite <- !app_assoc. reflexivity. }
    pose proof (drop_suffix _ _ _ Hw) as Hd.
    pose proof (lstrip_length rest) as L.
    destruct (length (LF :: ws ++ l ++ rest) - length (lstrip rest))%nat
      as [|m] eqn:Em.
    { simpl in Em. rewrite !length_app in Em. lia. }
    cbn [app]. f_equal. cbn [drop] in Hd.
    rewrite subx_skip by (simpl in Em; lia). rewrite Hd. reflexivity.
  - cbn [app re.subx]. rewrite sub_at_line.
    replace (c =? LF) with false by (symmetry; apply N.eqb_neq; exact Hc).
    cbn [andb app]. f_equal. exact IH.
Qed.

(** A text with none of the three patterns is only stripped. *)
Lemma search_from_line_lstrip n s :
  re.search_from LINE_LABEL n s = false ->
  re.search_from LINE_LABEL n (lstrip s) = false.
Proof.
  induction s as [|c s IH]; [auto|].
  intros H. simpl lstrip. destruct (isspace c); [|exact H].
  rewrite search_from_line_cons in H. apply orb_false_elim in H as [_ H]. auto.
Qed.

Lemma search_from_line_prefix n s t :
  re.search_from LINE_LABEL n (s ++ t) = false ->
  re.search_from LINE_LABEL n s = false.
Proof.
  induction s as [|c s IH]; [reflexivity|].
  simpl app. rewrite !search_from_line_cons.
  intros [H1 H2]%orb_false_elim. rewrite (IH H2), orb_false_r.
  destruct (c =? LF); [|reflexivity]. cbn [andb] in *.
  destruct (is_label (lstrip s)) eqn:E; [|reflexivity].
  rewrite lstrip_app_nonempty in H1.
  - unfold is_label in *. rewrite (prefix_match_app _ _ _ t E) in H1.
    discriminate.
  - intros E'. rewrite E' in E. discriminate.
Qed.

Lemma search_line_strip s :
  re.search LINE_LABEL s = false -> re.search LINE_LABEL (strip s) = false.
Proof.
  unfold re.search. intros H.
  rewrite (search_from_line_any _ (length s)).
  apply search_from_line_lstrip in H. unfold strip.
  destruct (rstrip_prefix (lstrip s)) as [w Hw]. rewrite Hw in H.
  apply search_from_line_prefix in H. exact H.
Qed.

Lemma search_placeholder_strip s :
  re.search PLACEHOLDER s = false ->
  re.search PLACEHOLDER (strip s) = false.
Proof.
  unfold re.search. intros H.
  rewrite (search_from_placeholder_any _ (length s)).
  apply search_from_strip, H.
Qed.

Lemma sanitize_plain x :
  re.search LEADING_LABEL x = false -> re.search LINE_LABEL x = false ->
  re.search PLACEHOLDER x = false -> sanitize x = strip x.
Proof.
  intros H1 H2 H3.
  change (sanitize x) with (rewrite3 (rewrite2 (rewrite1 x))).
  unfold rewrite1, rewrite2, rewrite3.
  rewrite (sub_no_match _ _ _ H1).
  rewrite (sub_no_match _ _ _ (search_line_strip x H2)), strip_strip.
  rewrite (sub_no_match _ _ _ (search_placeholder_strip x H3)).
  apply strip_strip.
Qed.

(** *** The statements never lengthen a text without placeholder *)

Lemma strip_length s : (length (strip s) <= length s)%nat.
Proof.
  unfold strip. destruct (rstrip_prefix (lstrip s)) as [w Hw].
  pose proof (lstrip_length s) as L. rewrite Hw in L.
  rewrite length_app in L. lia.
Qed.

Lemma search_leading s : re.search LEADING_LABEL s = is_label s.
Proof.
  unfold re.search. destruct s as [|c s]; [reflexivity|].
  cbn [re.search_from]. rewrite match_at_leading, Nat.eqb_refl. cbn [andb].
  destruct (is_label (c :: s)); [reflexivity|].
  apply search_from_leading_short. simpl. lia.
Qed.

Lemma sub_leading_length s :
  (length (re.sub LEADING_LABEL [] s) + (if is_label s then 13 else 0)
   <= length s)%nat.
Proof.
  rewrite sub_leading. destruct (is_label s) eqn:E; [|lia].
  apply prefix_match_length in E. change (length LABEL_SETS) with 13%nat in E.
  pose proof (lstrip_length (drop 13 s)) as L. rewrite length_drop in L. lia.
Qed.

Lemma subx_line_length n s : forall skip,
  (length (re.subx LINE_LABEL [LF] n s skip) <= length s - skip)%nat.
Proof.
  induction s as [|c s IH]; intros [|skip]; cbn [re.subx];
    rewrite ?sub_at_line.
  - simpl. lia.
  - simpl. lia.
  - destruct ((c =? LF) && is_label (lstrip s)) eqn:E.
    + apply andb_prop in E as [_ E]. apply prefix_match_length in E.
      change (length LABEL_SETS) with 13%nat in E.
      pose proof (lstrip_length (drop 13 (lstrip s))) as L1.
      pose proof (lstrip_length s) as L2. rewrite length_drop in L1.
      destruct (length (c :: s) - _)%nat as [|m] eqn:Em;
        [simpl in Em; lia|].
      cbn [app length]. specialize (IH m). simpl in Em. lia.
    + cbn [app length]. specialize (IH O). lia.
  - specialize (IH skip). simpl length. lia.
Qed.

Lemma subx_line_shorter n s :
  re.search_from LINE_LABEL n s = true ->
  (length (re.subx LINE_LABEL [LF] n s O) < length s)%nat.
Proof.
  induction s as [|c s IH]; [discriminate|].
  rewrite search_from_line_cons. cbn [re.subx]. rewrite sub_at_line.
  destruct ((c =? LF) && is_label (lstrip s)) eqn:E.
  - intros _. apply andb_prop in E as [_ E]. apply prefix_match_length in E.
    change (length LABEL_SETS) with 13%nat in E.
    pose proof (lstrip_length (drop 13 (lstrip s))) as L1.
    pose proof (lstrip_length s) as L2. rewrite length_drop in L1.
    destruct (length (c :: s) - _)%nat as [|m] eqn:Em;
      [simpl in Em; lia|].
    pose proof (subx_line_length n s m) as L3.
    cbn [app length]. simpl in Em. lia.
  - cbn [orb]. intros H. apply IH in H. cbn [app length]. lia.
Qed.

(** No set of the placeholder matches the line feed. *)
Lemma placeholder_sets_LF :
  forallb (fun cs => negb (re.in_charset true cs LF)) PLACEHOLDER_SETS = true.
Proof. reflexivity. Qed.

Lemma is_placeholder_LF u t :
  (length u < 17)%nat -> is_placeholder (u ++ LF :: t) = false.
Proof.
  intros Hu. destruct (is_placeholder _) eqn:E; [|reflexivity].
  destruct (PLACEHOLDER_SETS !! length u) as [cs|] eqn:Hcs.
  - destruct (prefix_match_lookup _ _ _ _ _ E Hcs) as (c & Hc & Hin).
    rewrite lookup_app_r, Nat.sub_diag in Hc by lia. injection Hc as <-.
    pose proof placeholder_sets_LF as F. rewrite forallb_forall in F.
    assert (In cs PLACEHOLDER_SETS) as I.
    { apply list_elem_of_In, list_elem_of_lookup. eauto. }
    apply F in I. rewrite Hin in I. discriminate.
  - apply lookup_ge_None in Hcs.
    change (length PLACEHOLDER_SETS) with 17%nat in Hcs. lia.
Qed.

(** The second substitution does not complete an occurrence of the
    placeholder, and so creates none. *)
Lemma placeholder_not_created_line n s : forall u,
  is_placeholder (u ++ re.subx LINE_LABEL [LF] n s O) = true ->
  is_placeholder (u ++ s) = true.
Proof.
  induction s as [|c s IH]; intros u; cbn [re.subx]; rewrite sub_at_line.
  - simpl. auto.
  - destruct ((c =? LF) && is_label (lstrip s)) eqn:E.
    + destruct (length (c :: s) - _)%nat as [|m]; cbn [app].
      * destruct (Nat.lt_ge_cases (length u) 17) as [Hu|Hu].
        -- rewrite is_placeholder_LF by exact Hu. discriminate.
        -- unfold is_placeholder.
           rewrite (prefix_match_long true PLACEHOLDER_SETS u _ (c :: s))
             by exact Hu. auto.
      * destruct (Nat.lt_ge_cases (length u) 17) as [Hu|Hu].
        -- rewrite is_placeholder_LF by exact Hu. discriminate.
        -- unfold is_placeholder.
           rewrite (prefix_match_long true PLACEHOLDER_SETS u _ (c :: s))
             by exact Hu. auto.
    + cbn [app]. intros H.
      replace (u ++ c :: s) with ((u ++ [c]) ++ s)
        by (rewrite <- app_assoc; reflexivity).
      apply IH. rewrite <- app_assoc. exact H.
Qed.

Lemma search_from_placeholder_tail n c s :
  re.search_from PLACEHOLDER n (c :: s) = false ->
  re.search_from PLACEHOLDER n s = false.
Proof.
  rewrite search_from_placeholder_cons. intros [_ H]%orb_false_elim. exact H.
Qed.

Lemma search_from_placeholder_drop n s : forall i,
  re.search_from PLACEHOLDER n s = false ->
  re.search_from PLACEHOLDER n (drop i s) = false.
Proof.
  induction s as [|c s IH]; intros [|i] H; try exact H.
  cbn [drop]. apply IH, (search_from_placeholder_tail n c s H).
Qed.

Lemma subx_line_placeholder n n' s : forall skip,
  re.search_from PLACEHOLDER n' s = false ->
  re.search_from PLACEHOLDER n' (re.subx LINE_LABEL [LF] n s skip) = false.
Proof.
  induction s as [|c s IH]; intros [|skip] H; cbn [re.subx];
    rewrite ?sub_at_line; try reflexivity.
  - pose proof (search_from_placeholder_tail _ _ _ H) as H'.
    destruct ((c =? LF) && is_label (lstrip s)) eqn:E.
    + assert (forall X, re.search_from PLACEHOLDER n' X = false ->
                re.search_from PLACEHOLDER n' ([LF] ++ X) = false) as F.
      { intros X HX. cbn [app]. rewrite search_from_placeholder_cons, HX.
        destruct (is_placeholder (LF :: X)) eqn:E'; [|reflexivity].
        apply is_placeholder_head in E'. discriminate. }
      destruct (length (c :: s) - _)%nat as [|m]; apply F.
      * cbn [app]. rewrite search_from_placeholder_cons, (IH O H').
        rewrite search_from_placeholder_cons in H.
        apply orb_false_elim in H as [H _].
        destruct (is_placeholder (c :: re.subx _ _ _ _ _)) eqn:E';
          [|reflexivity].
        apply (placeholder_not_created_line n s [c]) in E'. simpl in E'.
        congruence.
      * apply IH, H'.
    + cbn [app]. rewrite search_from_placeholder_cons, (IH O H').
      rewrite search_from_placeholder_cons in H.
      apply orb_false_elim in H as [H _].
      destruct (is_placeholder (c :: re.subx _ _ _ _ _)) eqn:E';
        [|reflexivity].
      apply (placeholder_not_created_line n s [c]) in E'. simpl in E'.
      congruence.
  - apply IH, (search_from_placeholder_tail _ _ _ H).
Qed.

Lemma rewrite1_placeholder s :
  re.search PLACEHOLDER s = false -> re.search PLACEHOLDER (rewrite1 s) = false.
Proof.
  intros H. unfold rewrite1. apply search_placeholder_strip.
  rewrite sub_leading. destruct (is_label s); [|exact H].
  unfold re.search in *.
  rewrite (search_from_placeholder_any _ (length s)).
  apply search_from_lstrip, search_from_placeholder_drop, H.
Qed.

Lemma rewrite2_placeholder s :
  re.search PLACEHOLDER s = false -> re.search PLACEHOLDER (rewrite2 s) = false.
Proof.
  intros H. unfold rewrite2. apply search_placeholder_strip.
  unfold re.search, re.sub in *.
  rewrite (search_from_placeholder_any _ (length s)).
  apply subx_line_placeholder, H.
Qed.

Lemma rewrite1_length s :
  (length (rewrite1 s) + (if is_label s then 13 else 0) <= length s)%nat.
Proof.
  unfold rewrite1. pose proof (sub_leading_length s).
  pose proof (strip_length (re.sub LEADING_LABEL [] s)). lia.
Qed.

Lemma rewrite2_length s : (length (rewrite2 s) <= length s)%nat.
Proof.
  unfold rewrite2, re.sub.
  pose proof (subx_line_length (length s) s O).
  pose proof (strip_length (re.subx LINE_LABEL [LF] (length s) s O)). lia.
Qed.

Lemma rewrite2_shorter s :
  re.search LINE_LABEL s = true -> (length (rewrite2 s) < length s)%nat.
Proof.
  intros H. unfold rewrite2, re.sub.
  pose proof (subx_line_shorter (length s) s H).
  pose proof (strip_length (re.subx LINE_LABEL [LF] (length s) s O)). lia.
Qed.

Lemma rewrite3_length s :
  re.search PLACEHOLDER s = false -> (length (rewrite3 s) <= length s)%nat.
Proof.
  intros H. unfold rewrite3. rewrite (sub_no_match _ _ _ H).
  apply strip_length.
Qed.

(** Only the head of an occurrence of the placeholder is a [[]. *)
Lemma placeholder_inner_sets :
  forallb (fun cs => negb (re.in_charset true cs 91)) (tail PLACEHOLDER_SETS)
  = true.
Proof. reflexivity. Qed.

Lemma is_placeholder_inner s i :
  is_placeholder s = true -> (1 <= i < 17)%nat -> s !! i <> Some 91.
Proof.
  intros H Hi E. destruct i as [|i]; [lia|].
  destruct (PLACEHOLDER_SETS !! S i) as [cs|] eqn:Hcs.
  - destruct (prefix_match_lookup _ _ _ _ _ H Hcs) as (c & Hc & Hin).
    rewrite E in Hc. injection Hc as <-.
    pose proof placeholder_inner_sets as F. rewrite forallb_forall in F.
    assert (In cs (tail PLACEHOLDER_SETS)) as I.
    { apply list_elem_of_In, list_elem_of_lookup. exists i. exact Hcs. }
    apply F in I. rewrite Hin in I. discriminate.
  - apply lookup_ge_None in Hcs.
    change (length PLACEHOLDER_SETS) with 17%nat in Hcs. lia.
Qed.

(** An occurrence does not straddle the beginning of another one. *)
Lemma is_placeholder_before a P b :
  a <> [] -> is_placeholder P = true ->
  is_placeholder (a ++ P ++ b) = is_placeholder a.
Proof.
  intros Ha HP. destruct (Nat.le_gt_cases 17 (length a)) as [Hl|Hl].
  - unfold is_placeholder.
    rewrite (prefix_match_long true PLACEHOLDER_SETS a _ []) by exact Hl.
    rewrite app_nil_r. reflexivity.
  - assert (is_placeholder a = false) as ->.
    { destruct (is_placeholder a) eqn:E; [|reflexivity].
      apply prefix_match_length in E.
      change (length PLACEHOLDER_SETS) with 17%nat in E. lia. }
    destruct (is_placeholder (a ++ P ++ b)) eqn:E; [|reflexivity].
    exfalso. apply (is_placeholder_inner _ (length a) E).
    + destruct a; [contradiction | simpl in *; lia].
    + rewrite lookup_app_r by lia. rewrite Nat.sub_diag.
      destruct P as [|c P]; [discriminate|].
      apply is_placeholder_head in HP. subst c. reflexivity.
Qed.

Lemma subx_placeholder_app n P b (R : str) :
  is_placeholder P = true -> length P = 17%nat ->
  forall a skip, (skip <= length a)%nat ->
  re.subx PLACEHOLDER R n (a ++ P ++ b) skip
  = re.subx PLACEHOLDER R n a skip ++ R ++ re.subx PLACEHOLDER R n b O.
Proof.
  intros HP HL. induction a as [|c a IH]; intros skip Hs.
  - assert (skip = O) as -> by (simpl in Hs; lia).
    destruct P as [|c P]; [discriminate|].
    cbn [app re.subx]. rewrite !sub_at_placeholder.
    change (c :: P ++ b) with ((c :: P) ++ b).
    unfold is_placeholder in *. rewrite (prefix_match_app _ _ _ b HP).
    cbn [prefix_match PLACEHOLDER_SETS app].
    rewrite subx_skip by (rewrite length_app; simpl in HL; lia).
    replace 16%nat with (length P) by (simpl in HL; lia).
    rewrite drop_app_length. reflexivity.
  - destruct skip as [|skip].
    + cbn [app re.subx]. rewrite !sub_at_placeholder.
      change (c :: a ++ P ++ b) with ((c :: a) ++ P ++ b).
      rewrite is_placeholder_before by (discriminate || exact HP).
      destruct (is_placeholder (c :: a)) eqn:E.
      * cbn [app]. rewrite IH; [rewrite app_assoc; reflexivity|].
        apply prefix_match_length in E.
        change (length PLACEHOLDER_SETS) with 17%nat in E. simpl in E. lia.
      * cbn [app]. rewrite IH by lia. reflexivity.
    + cbn [app re.subx]. apply IH. simpl in Hs. lia.
Qed.

(** X17: part (c) of the contract of the sanitizer: the third substitution
    replaces an occurrence of the placeholder, in any spelling of its
    letters, wherever it stands, and goes on with the text on both sides. *)
Lemma sub_placeholder_app a P b (R : str) :
  is_placeholder P = true -> length P = 17%nat ->
  re.sub PLACEHOLDER R (a ++ P ++ b)
  = re.sub PLACEHOLDER R a ++ R ++ re.sub PLACEHOLDER R b.
Proof.
  intros HP HL. unfold re.sub.
  rewrite (subx_placeholder_app _ P b R HP HL a O) by lia.
  rewrite (subx_placeholder_any R (length (a ++ P ++ b)) (length a) a).
  rewrite (subx_placeholder_any R (length (a ++ P ++ b)) (length b) b).
  reflexivity.
Qed.

End Statements.

(** ** The sanitizer *)

Section Sanitizer.

Lemma sanitize_passes x : sanitize x = rewrite3 (rewrite2 (rewrite1 x)).
Proof. reflexivity. Qed.

Lemma strip_artifacts_no_failure x :
  strip_artifacts no_failure x = Ok (sanitize x).
Proof. reflexivity. Qed.

Lemma sanitize_stripped_eq x : strip (sanitize x) = sanitize x.
Proof. rewrite sanitize_passes. unfold rewrite3. apply strip_strip. Qed.

(** Whichever statements fail, the sanitizer returns a text. *)
Lemma strip_artifacts_returns raises x :
  exists y, strip_artifacts raises x = Ok y.
Proof.
  unfold strip_artifacts, assign.
  destruct (raises 0%nat); [eauto|].
  destruct (raises 1%nat); [eauto|].
  destruct (raises 2%nat); eauto.
Qed.

(** C6, as the specification states it, fails: of two leading labels the
    first run removes one, and a second run removes the other. *)
Lemma sanitize_not_idempotent :
  sanitize (py "Final Answer: Final Answer: hello") = py "Final Answer: hello"
  /\ sanitize (sanitize (py "Final Answer: Final Answer: hello")) = py "hello"
  /\ sanitize (sanitize (py "Final Answer: Final Answer: hello"))
     <> sanitize (py "Final Answer: Final Answer: hello").
Proof. vm_compute. repeat split; discriminate. Qed.

(** C6, amended: the sanitizer is idempotent at every text whose sanitized
    form neither begins with the label nor has the label at the start of a
    line; the placeholder never stands in the way. *)
Theorem sanitize_idempotent_when_clean x :
  re.search LEADING_LABEL (sanitize x) = false ->
  re.search LINE_LABEL (sanitize x) = false ->
  sanitize (sanitize x) = sanitize x.
Proof.
  intros H1 H2.
  assert (re.search PLACEHOLDER (sanitize x) = false) as H3
    by (rewrite sanitize_passes; apply rewrite3_placeholder_gone).
  set (y := sanitize x) in *.
  assert (strip y = y) as Hy by apply sanitize_stripped_eq.
  rewrite (sanitize_passes y). unfold rewrite1, rewrite2, rewrite3.
  rewrite (sub_no_match _ _ _ H1), Hy.
  rewrite (sub_no_match _ _ _ H2), Hy.
  rewrite (sub_no_match _ _ _ H3), Hy.
  reflexivity.
Qed.

(** The condition is the exact one: a sanitized text in which the label
    still begins the text or a line is shortened by a second run. *)
Lemma sanitize_again_shorter x :
  re.search LEADING_LABEL (sanitize x) || re.search LINE_LABEL (sanitize x)
  = true ->
  (length (sanitize (sanitize x)) < length (sanitize x))%nat.
Proof.
  intros H.
  assert (re.search PLACEHOLDER (sanitize x) = false) as H3
    by (rewrite sanitize_passes; apply rewrite3_placeholder_gone).
  pose proof (sanitize_stripped_eq x) as Hy.
  set (y := sanitize x) in *.
  rewrite (sanitize_passes y).
  pose proof (rewrite1_placeholder y H3) as P1.
  pose proof (rewrite2_placeholder _ P1) as P2.
  pose proof (rewrite3_length _ P2) as L3.
  pose proof (rewrite2_length (rewrite1 y)) as L2.
  pose proof (rewrite1_length y) as L1.
  rewrite search_leading in H.
  destruct (is_label y) eqn:E; [lia|].
  cbn [orb] in H. rewrite (rewrite1_no_label y E), Hy in *.
  pose proof (rewrite2_shorter y H). lia.
Qed.

(** X19: a second run of the sanitizer changes nothing only when the first
    result holds no label at the start of the text or of a line. *)
Lemma sanitize_idempotent_only_when_clean x :
  sanitize (sanitize x) = sanitize x ->
  re.search LEADING_LABEL (sanitize x) = false
  /\ re.search LINE_LABEL (sanitize x) = false.
Proof.
  intros E. apply orb_false_elim.
  destruct (_ || _) eqn:H; [|reflexivity].
  apply sanitize_again_shorter in H. rewrite E in H. lia.
Qed.

Lemma sanitize_idempotent_when_clean_witness :
  re.search LEADING_LABEL (sanitize (py "Final Answer: see [email protected]")) = false
  /\ re.search LINE_LABEL (sanitize (py "Final Answer: see [email protected]")) = false
  /\ sanitize (sanitize (py "Final Answer: see [email protected]"))
     = sanitize (py "Final Answer: see [email protected]").
Proof.
  split; [reflexivity|]. split; [reflexivity|].
  apply (sanitize_idempotent_when_clean (py "Final Answer: see [email protected]"));
    reflexivity.
Defined.

(** C7 at two label lines that follow each other: the white space after
    the first label takes the line break of the second, which stays in the
    result at the start of a line. *)
Theorem sanitize_keeps_second_label_line :
  sanitize (py "a" ++ [LF] ++ py "Final Answer:" ++ [LF] ++ py "Final Answer: b")
  = py "a" ++ [LF] ++ py "Final Answer: b"
  /\ re.search LINE_LABEL
       (sanitize (py "a" ++ [LF] ++ py "Final Answer:" ++ [LF]
                  ++ py "Final Answer: b")) = true.
Proof. split; vm_compute; reflexivity. Qed.



(** C9: the result of the sanitizer neither begins nor ends with white
    space, since every statement strips the whole text; a text without
    label and without placeholder is stripped all the same, as the text
    [  hello  ] is. *)
Theorem sanitize_no_surrounding_space x :
  from_option isspace false (head (sanitize x)) = false
  /\ from_option isspace false (last (sanitize x)) = false
  /\ (re.search LEADING_LABEL x = false -> re.search LINE_LABEL x = false ->
      re.search PLACEHOLDER x = false -> sanitize x = strip x)
  /\ sanitize (py "  hello  ") = py "hello".
Proof.
  rewrite sanitize_passes. unfold rewrite3.
  split; [apply strip_head|]. split; [apply strip_last|].
  split; [apply sanitize_plain | reflexivity].
Qed.

Lemma sanitize_no_surrounding_space_witness :
  from_option isspace false (head (sanitize (py " see you "))) = false
  /\ from_option isspace false (last (sanitize (py " see you "))) = false
  /\ sanitize (py " see you ") = strip (py " see you ").
Proof.
  destruct (sanitize_no_surrounding_space (py " see you "))
    as (H1 & H2 & H3 & _).
  split; [exact H1|]. split; [exact H2|]. apply H3; reflexivity.
Defined.

End Sanitizer.

(** ** The query handler *)

Ltac in_apologies :=
  unfold APOLOGIES;
  repeat first [apply list_elem_of_here | apply list_elem_of_further].

Section Handler.

Lemma blank_strip q : forallb isspace q = true -> strip q = [].
Proof.
  intros H. unfold strip.
  assert (lstrip q = []) as ->; [|reflexivity].
  induction q as [|c q IH]; simpl in *; [reflexivity|].
  apply andb_prop in H as [-> H]. auto.
Qed.

(** The handler returns in every world.  It leaves the memory as it is
    unless the completion service returned a text; then the reply is that
    text sanitized, and the memory is unchanged or has the exchange
    appended. *)
Lemma handle_query_outcome w DI q m :
  exists a m', handle_query w DI q m = (Ok a, m')
    /\ ((m' = m /\ ((is_empty (strip q) = true /\ a = EMPTY_QUERY)
                    \/ (is_empty (strip q) = false /\ a ∈ APOLOGIES)))
        \/ (is_empty (strip q) = false
            /\ (m' = m \/ m' = save_context m q a)
            /\ exists input out,
                 generate w input = Ok out
                 /\ strip_artifacts (re_raises w) out = Ok a)).
Proof.
  unfold handle_query, try_except.
  destruct (is_empty (strip q)) eqn:Hq.
  { eexists _, _. split; [reflexivity|]. left. auto. }
  assert (forall a, a ∈ APOLOGIES ->
            exists a0 m', (Ok a, m) = (Ok a0, m')
              /\ ((m' = m /\ ((false = true /\ a0 = EMPTY_QUERY)
                              \/ (false = false /\ a0 ∈ APOLOGIES)))
                  \/ (false = false /\ (m' = m \/ m' = save_context m q a0)
                      /\ exists input out,
                           generate w input = Ok out
                           /\ strip_artifacts (re_raises w) out = Ok a0)))
    as fixed.
  { intros a Ha. eexists _, _. split; [reflexivity|]. left. auto. }
  destruct (get_retriever w) as [[retriever|]|e].
  - destruct (retriever q) as [docs|e].
    + destruct (generate w _) as [out|[|]] eqn:Hg.
      * destruct (strip_artifacts_returns (re_raises w) out) as [a Hs].
        rewrite Hs.
        destruct (save_context_raises w);
          (eexists _, _; split; [reflexivity|]; right;
           split; [reflexivity|]; split; [auto|]; eauto).
      * apply fixed. in_apologies.
      * apply fixed. in_apologies.
    + apply fixed. in_apologies.
  - apply fixed. in_apologies.
  - apply fixed. in_apologies.
Qed.

End Handler.

(** ** The session facade *)

Section Facade.

Lemma to_str_length n : length (uuid.to_str n) = 36%nat.
Proof.
  unfold uuid.to_str, uuid.hex32.
  rewrite !length_app, !length_take, !length_drop, !length_map, !length_seq.
  reflexivity.
Qed.

Lemma effective_id_nonempty w cid : effective_id w cid <> [].
Proof.
  assert (uuid.to_str (uuid.uuid4 (urandom w 1%nat)) <> []) as H.
  { intros E. pose proof (to_str_length (uuid.uuid4 (urandom w 1%nat))) as L.
    rewrite E in L. discriminate. }
  destruct cid as [[|c cs]|]; simpl; auto; discriminate.
Qed.

(** The facade, by cases. *)
Lemma answer_question_eq w st q cid :
  answer_question w st q cid =
  let id := effective_id w cid in
  let reply a := Ok {| answer := a; conversation_id := id |} in
  if is_empty (strip q) then (reply EMPTY_QUESTION, st)
  else if bool_decide (memories st !! id = None
                       /\ new_memory_raises w <> None)
  then (reply MEMORY_SETUP_FAILED, st)
  else
    (match (handle_query w (DOMAIN_INSTRUCTIONS st) q (memory_for st id)).1 with
     | Ok a => reply a
     | Raise _ => reply ANSWER_CRITICAL
     end,
     set_memories st
       (<[id := (handle_query w (DOMAIN_INSTRUCTIONS st) q (memory_for st id)).2]>
          (memories st))).
Proof.
  unfold answer_question, memory_for, try_except. cbv zeta.
  set (id := effective_id w cid).
  destruct (is_empty (strip q)); [reflexivity|].
  destruct (memories st !! id) as [m|] eqn:Hm.
  - rewrite bool_decide_eq_false_2 by (intros [? _]; discriminate).
    rewrite Hm. simpl.
    destruct (handle_query _ _ _ _) as [[a|e] m']; reflexivity.
  - destruct (new_memory_raises w) as [e|].
    + rewrite bool_decide_eq_true_2 by (split; [reflexivity | discriminate]).
      reflexivity.
    + rewrite bool_decide_eq_false_2 by (intros [_ ?]; congruence).
      cbn [memories set_memories DOMAIN_INSTRUCTIONS].
      rewrite lookup_insert_eq. simpl default.
      destruct (handle_query _ _ _ _) as [[a|e] m']; simpl;
        rewrite insert_insert_eq; reflexivity.
Qed.

(** The facade returns in every world, with the conversation identifier
    it settled on, and changes at most the session of that identifier. *)
Lemma answer_question_outcome w st q cid :
  exists a st',
    answer_question w st q cid
    = (Ok {| answer := a; conversation_id := effective_id w cid |}, st')
    /\ (st' = st
        \/ exists m, st' = set_memories st
                             (<[effective_id w cid := m]> (memories st))).
Proof.
  rewrite answer_question_eq. cbv zeta.
  destruct (is_empty (strip q));
    [eexists _, _; split; [reflexivity | left; reflexivity]|].
  destruct (bool_decide _);
    [eexists _, _; split; [reflexivity | left; reflexivity]|].
  destruct (handle_query _ _ _ _) as [[a|e] m']; simpl;
    (eexists _, _; split; [reflexivity | right; eexists; reflexivity]).
Qed.

(** C5: a blank question receives the fixed request for a question together
    with the conversation identifier, the supplied one or else a new one,
    and the memory store is left as it is. *)
Theorem answer_question_blank w st q cid :
  forallb isspace q = true ->
  answer_question w st q cid =
  (Ok {| answer := EMPTY_QUESTION;
         conversation_id :=
           match cid with
           | Some (c :: cs) => c :: cs
           | _ => uuid.to_str (uuid.uuid4 (urandom w 1%nat))
           end |}, st).
Proof.
  intros H. rewrite answer_question_eq. cbv zeta.
  rewrite (blank_strip q H). simpl is_empty. cbv iota.
  destruct cid as [[|c cs]|]; reflexivity.
Qed.

Lemma answer_question_blank_witness :
  forallb isspace (py "   ") = true
  /\ answer_question (working []) boot (py "   ") (Some (py "c1"))
     = (Ok {| answer := EMPTY_QUESTION; conversation_id := py "c1" |}, boot).
Proof.
  split; [reflexivity|].
  apply (answer_question_blank (working []) boot (py "   ") (Some (py "c1"))).
  reflexivity.
Defined.


(** *** What the handler does, stage by stage *)

Lemma handle_query_no_retriever w DI q m :
  is_empty (strip q) = false -> get_retriever w = Ok None ->
  handle_query w DI q m = (Ok RETRIEVER_UNAVAILABLE, m).
Proof. intros Hq Hr. unfold handle_query. rewrite Hq, Hr. reflexivity. Qed.

Lemma handle_query_retrieval_raises w DI q m retriever e :
  is_empty (strip q) = false -> get_retriever w = Ok (Some retriever) ->
  retriever q = Raise e ->
  handle_query w DI q m = (Ok RETRIEVAL_FAILED, m).
Proof.
  intros Hq Hr He. unfold handle_query. rewrite Hq, Hr, He. reflexivity.
Qed.

Lemma handle_query_successful w DI q m :
  is_empty (strip q) = false -> successful w q ->
  exists a, handle_query w DI q m = (Ok a, save_context m q a).
Proof.
  intros Hq (_ & (retriever & docs & Hr & Hd) & Hg & Hs).
  destruct (Hg (request w DI q docs m)) as [out Hout].
  destruct (strip_artifacts_returns (re_raises w) out) as [a Ha].
  unfold handle_query. rewrite Hq, Hr, Hd, Hout, Ha, Hs.
  exists a. reflexivity.
Qed.

(** The facade around a handler that returns: the reply goes to the caller
    and the memory the handler leaves is the session. *)
Lemma answer_question_handled w st q cid a m' :
  is_empty (strip q) = false ->
  (memories st !! effective_id w cid = None -> new_memory_raises w = None) ->
  handle_query w (DOMAIN_INSTRUCTIONS st) q (memory_for st (effective_id w cid))
  = (Ok a, m') ->
  answer_question w st q cid =
  (Ok {| answer := a; conversation_id := effective_id w cid |},
   set_memories st (<[effective_id w cid := m']> (memories st))).
Proof.
  intros Hq Hn Hh. rewrite answer_question_eq. cbv zeta. rewrite Hq, Hh.
  rewrite bool_decide_eq_false_2 by (intros [? ?]; auto). reflexivity.
Qed.

Lemma with_session_existing st id :
  is_Some (memories st !! id) -> with_session st id = st.
Proof.
  intros [m Hm]. unfold with_session, memory_for. rewrite Hm. simpl.
  rewrite (insert_id _ _ _ Hm). destruct st; reflexivity.
Qed.

Lemma with_session_session st id id' :
  session (with_session st id) id' = session st id'.
Proof.
  unfold session, with_session, memory_for. simpl.
  destruct (decide (id = id')) as [<-|Hne].
  - rewrite lookup_insert_eq. destruct (memories st !! id); reflexivity.
  - rewrite lookup_insert_ne by exact Hne. reflexivity.
Qed.

End Facade.

(** ** Failure containment *)

Section Containment.

(** C2: a call with a question never raises, in whatever world; it returns
    an answer and the conversation identifier, which is not empty.  The
    answer is one of the fixed responses unless the completion service
    returned a text, of which it is then the sanitized form; so it is a
    fixed response when the completion service cannot even be built. *)
Theorem answer_question_never_raises w st q cid :
  is_empty (strip q) = false ->
  exists a st',
    answer_question w st q cid
    = (Ok {| answer := a; conversation_id := effective_id w cid |}, st')
    /\ effective_id w cid <> []
    /\ (a ∈ APOLOGIES
        \/ exists input out,
             generate w input = Ok out
             /\ strip_artifacts (re_raises w) out = Ok a)
    /\ (get_llm_raises w <> None -> a ∈ APOLOGIES).
Proof.
  intros Hq. rewrite answer_question_eq. cbv zeta. rewrite Hq.
  assert (forall a,
            (a ∈ APOLOGIES
             \/ exists input out,
                  generate w input = Ok out
                  /\ strip_artifacts (re_raises w) out = Ok a) ->
            get_llm_raises w <> None -> a ∈ APOLOGIES) as Hllm.
  { intros a [Ha|(input & out & Hg & _)] Hl; [exact Ha|].
    unfold generate in Hg. destruct (get_llm_raises w); congruence. }
  destruct (bool_decide _).
  - eexists _, _. split; [reflexivity|]. split; [apply effective_id_nonempty|].
    assert (MEMORY_SETUP_FAILED ∈ APOLOGIES) by in_apologies. auto.
  - destruct (handle_query_outcome w (DOMAIN_INSTRUCTIONS st) q
                (memory_for st (effective_id w cid)))
      as (a & m' & -> & H). simpl.
    eexists _, _. split; [reflexivity|]. split; [apply effective_id_nonempty|].
    assert (a ∈ APOLOGIES
            \/ exists input out,
                 generate w input = Ok out
                 /\ strip_artifacts (re_raises w) out = Ok a) as Ha.
    { destruct H as [(_ & [[E _]|[_ Ha]])|(_ & _ & Hs)]; [congruence|auto|auto]. }
    auto.
Qed.

Lemma answer_question_never_raises_witness :
  is_empty (strip (py "Where is my order?")) = false
  /\ exists a st',
       answer_question broken boot (py "Where is my order?") None
       = (Ok {| answer := a; conversation_id := effective_id broken None |}, st')
       /\ effective_id broken None <> []
       /\ (a ∈ APOLOGIES
           \/ exists input out,
                generate broken input = Ok out
                /\ strip_artifacts (re_raises broken) out = Ok a)
       /\ (get_llm_raises broken <> None -> a ∈ APOLOGIES).
Proof.
  split; [reflexivity|].
  apply (answer_question_never_raises broken boot (py "Where is my order?") None).
  reflexivity.
Defined.

(** C3, as the specification states it, fails twice when the retrieval call
    raises in a conversation not seen before: the response is not the one
    given for a missing retriever, and the store gains a session. *)
Lemma retrieval_raise_answer :
  answer_question
    (with_retriever (Ok (Some (fun _ => Raise OtherException))) (working []))
    boot (py "Hello") (Some (py "c1"))
  = (Ok {| answer := RETRIEVAL_FAILED; conversation_id := py "c1" |},
     set_memories boot (<[py "c1" := {| k := 5; exchanges := [] |}]> ∅))
  /\ RETRIEVAL_FAILED <> RETRIEVER_UNAVAILABLE
  /\ memories boot !! py "c1" = None
  /\ <[py "c1" := {| k := 5; exchanges := [] |}]> (memories boot) !! py "c1"
     <> memories boot !! py "c1".
Proof.
  split; [|split; [|split]].
  - apply (answer_question_handled _ boot (py "Hello") (Some (py "c1"))).
    + reflexivity.
    + reflexivity.
    + reflexivity.
  - vm_compute. discriminate.
  - apply lookup_empty.
  - rewrite lookup_insert_eq. simpl. rewrite lookup_empty. discriminate.
Qed.

(** C3, amended: when the retriever is missing the handler returns the
    fixed response about the information system, and when the retrieval
    call raises it returns the fixed response about retrieval; it leaves
    the memory as it is.  The facade, when it has or can build the session,
    returns that response with the conversation identifier, which is not
    empty; no exchange is added to any session, and the store changes only
    by the empty session of a conversation not seen before. *)
Theorem retrieval_failure w st q cid :
  is_empty (strip q) = false ->
  (memories st !! effective_id w cid = None -> new_memory_raises w = None) ->
  (get_retriever w = Ok None ->
   (forall DI m, handle_query w DI q m = (Ok RETRIEVER_UNAVAILABLE, m))
   /\ answer_question w st q cid
      = (Ok {| answer := RETRIEVER_UNAVAILABLE;
               conversation_id := effective_id w cid |},
         with_session st (effective_id w cid)))
  /\ (forall retriever e,
        get_retriever w = Ok (Some retriever) -> retriever q = Raise e ->
        (forall DI m, handle_query w DI q m = (Ok RETRIEVAL_FAILED, m))
        /\ answer_question w st q cid
           = (Ok {| answer := RETRIEVAL_FAILED;
                    conversation_id := effective_id w cid |},
              with_session st (effective_id w cid)))
  /\ effective_id w cid <> []
  /\ (forall id, session (with_session st (effective_id w cid)) id
                 = session st id)
  /\ (is_Some (memories st !! effective_id w cid) ->
      with_session st (effective_id w cid) = st).
Proof.
  intros Hq Hn. split; [|split; [|split; [|split]]].
  - intros Hr. split.
    + intros DI m. apply handle_query_no_retriever; assumption.
    + apply answer_question_handled; try assumption.
      apply handle_query_no_retriever; assumption.
  - intros retriever e Hr He. split.
    + intros DI m. eapply handle_query_retrieval_raises; eassumption.
    + apply answer_question_handled; try assumption.
      eapply handle_query_retrieval_raises; eassumption.
  - apply effective_id_nonempty.
  - intros id. apply with_session_session.
  - apply with_session_existing.
Qed.

Lemma retrieval_failure_witness :
  is_empty (strip (py "Hello")) = false
  /\ (memories boot !! effective_id (with_retriever (Ok None) (working []))
                         (Some (py "c1")) = None ->
      new_memory_raises (with_retriever (Ok None) (working [])) = None)
  /\ answer_question (with_retriever (Ok None) (working [])) boot (py "Hello")
       (Some (py "c1"))
     = (Ok {| answer := RETRIEVER_UNAVAILABLE; conversation_id := py "c1" |},
        with_session boot (py "c1")).
Proof.
  split; [reflexivity|]. split; [reflexivity|].
  apply (retrieval_failure (with_retriever (Ok None) (working [])) boot
           (py "Hello") (Some (py "c1"))); reflexivity.
Defined.

(** C4: when the completion service fails, the handler returns the fixed
    response of the class of the failure, the one for a failure of the
    provider or the one for any other exception; the memory is as it was
    and nothing is raised. *)
Theorem generation_failure w DI q m retriever docs e :
  is_empty (strip q) = false ->
  get_retriever w = Ok (Some retriever) ->
  retriever q = Ok docs ->
  generate w (request w DI q docs m) = Raise e ->
  handle_query w DI q m =
  (Ok match e with
      | LangChainException => CHAIN_FAILED
      | OtherException => CHAIN_UNEXPECTED
      end, m).
Proof.
  intros Hq Hr Hd Hg. unfold handle_query, try_except.
  rewrite Hq, Hr, Hd, Hg. destruct e; reflexivity.
Qed.

Lemma generation_failure_witness :
  handle_query (with_chain (fun _ => Raise LangChainException) (working []))
    [] (py "Hello") {| k := 5; exchanges := [(py "Hi", py "Hello!")] |}
  = (Ok CHAIN_FAILED, {| k := 5; exchanges := [(py "Hi", py "Hello!")] |}).
Proof.
  apply (generation_failure
           (with_chain (fun _ => Raise LangChainException) (working []))
           [] (py "Hello") {| k := 5; exchanges := [(py "Hi", py "Hello!")] |}
           (fun _ => Ok []) [] LangChainException); reflexivity.
Defined.

(** C10: the empty string as conversation identifier counts as none.  The
    identifier returned is the text of a new UUID, thirty-six characters
    long; the session of the empty string is as before, and so is every
    session but the one of the new identifier. *)
Theorem answer_question_empty_id w st q :
  exists a st',
    answer_question w st q (Some [])
    = (Ok {| answer := a;
             conversation_id := uuid.to_str (uuid.uuid4 (urandom w 1%nat)) |},
       st')
    /\ length (uuid.to_str (uuid.uuid4 (urandom w 1%nat))) = 36%nat
    /\ memories st' !! [] = memories st !! []
    /\ forall id, id <> uuid.to_str (uuid.uuid4 (urandom w 1%nat)) ->
                  memories st' !! id = memories st !! id.
Proof.
  destruct (answer_question_outcome w st q (Some [])) as (a & st' & E & H).
  exists a, st'. split; [exact E|]. split; [apply to_str_length|].
  assert (forall id, id <> uuid.to_str (uuid.uuid4 (urandom w 1%nat)) ->
                     memories st' !! id = memories st !! id) as F.
  { intros id Hid. destruct H as [->|[m ->]]; [reflexivity|].
    simpl. apply lookup_insert_ne. intros E'. apply Hid. rewrite <- E'.
    reflexivity. }
  split; [|exact F]. apply F. intros E'.
  pose proof (to_str_length (uuid.uuid4 (urandom w 1%nat))) as L.
  rewrite <- E' in L. discriminate.
Qed.

End Containment.

(** ** The bounded history *)

Section Window.

Lemma length_lastn {A} n (l : list A) :
  length (lastn n l) = Nat.min n (length l).
Proof. unfold lastn. rewrite length_drop. lia. Qed.

Lemma lastn_short {A} n (l : list A) :
  (length l <= n)%nat -> lastn n l = l.
Proof.
  intros H. unfold lastn.
  replace (length l - n)%nat with O by lia. reflexivity.
Qed.

(** Eviction commutes with later appends: what was evicted would have been
    evicted anyway. *)
Lemma lastn_app_lastn {A} n (l l' : list A) :
  lastn n (lastn n l ++ l') = lastn n (l ++ l').
Proof.
  destruct (Nat.le_gt_cases (length l) n) as [H|H].
  - rewrite (lastn_short n l H). reflexivity.
  - unfold lastn at 1 3.
    rewrite !length_app, length_lastn.
    replace (Nat.min n (length l) + length l' - n)%nat with (length l') by lia.
    replace (length l + length l' - n)%nat
      with ((length l - n) + length l')%nat by lia.
    rewrite <- drop_drop. f_equal. unfold lastn.
    rewrite drop_app_le by lia. reflexivity.
Qed.

Lemma save_context_bounded m q a :
  k m = 5%nat ->
  k (save_context m q a) = 5%nat
  /\ (length (exchanges (save_context m q a)) <= 5)%nat.
Proof.
  intros Hk. unfold save_context. simpl. rewrite Hk, length_lastn. lia.
Qed.

Lemma memory_for_bounded st id :
  bounded st ->
  k (memory_for st id) = 5%nat
  /\ (length (exchanges (memory_for st id)) <= 5)%nat.
Proof.
  intros Hb. unfold memory_for.
  destruct (memories st !! id) as [m|] eqn:Hm; simpl.
  - exact (Hb id m Hm).
  - lia.
Qed.

(** One call keeps every session within the bound. *)
Lemma answer_question_bounded w st q cid :
  bounded st -> bounded (answer_question w st q cid).2.
Proof.
  intros Hb. rewrite answer_question_eq. cbv zeta.
  destruct (is_empty (strip q)); [exact Hb|].
  destruct (bool_decide _); [exact Hb|].
  cbn [snd]. unfold bounded. cbn [memories set_memories].
  apply map_Forall_insert_2; [|exact Hb].
  pose proof (memory_for_bounded st (effective_id w cid) Hb) as [Hk Hl].
  destruct (handle_query_outcome w (DOMAIN_INSTRUCTIONS st) q
              (memory_for st (effective_id w cid))) as (a & m' & -> & H).
  cbn [snd].
  destruct H as [[-> _]|(_ & [->| ->] & _)]; auto using save_context_bounded.
Qed.

Lemma run_bounded calls : forall st, bounded st -> bounded (run calls st).2.
Proof.
  induction calls as [|c calls IH]; intros st Hb; [exact Hb|].
  cbn [run].
  pose proof (answer_question_bounded (world c) st (user_question c)
                (supplied_id c) Hb) as H1.
  destruct (answer_question _ _ _ _) as [r st1]. cbn [snd] in H1.
  specialize (IH st1 H1). destruct (run calls st1) as [rs st2]. exact IH.
Qed.

(** A successful exchange on a conversation: the reply goes to the caller
    and the pair is appended to the session, the oldest pair leaving when
    there are more than five. *)
Lemma answer_question_successful w st q id :
  id <> [] -> bounded st -> is_empty (strip q) = false -> successful w q ->
  exists a st',
    answer_question w st q (Some id)
    = (Ok {| answer := a; conversation_id := id |}, st')
    /\ session st' id = lastn 5 (session st id ++ [(q, a)]).
Proof.
  intros Hid Hb Hq Hs.
  assert (effective_id w (Some id) = id) as Eid
    by (destruct id; [contradiction | reflexivity]).
  destruct (handle_query_successful w (DOMAIN_INSTRUCTIONS st) q
              (memory_for st id) Hq Hs) as [a Ha].
  exists a. eexists. split.
  - rewrite <- Eid at 2.
    apply answer_question_handled; [exact Hq | | rewrite Eid; exact Ha].
    intros _. apply Hs.
  - rewrite Eid. unfold session at 1. cbn [memories set_memories].
    rewrite lookup_insert_eq. simpl.
    rewrite (proj1 (memory_for_bounded st id Hb)).
    unfold session, memory_for. destruct (memories st !! id); reflexivity.
Qed.

Lemma run_successful id calls : forall st,
  id <> [] -> bounded st -> exchanges_on id calls ->
  session (run calls st).2 id
  = lastn 5 (session st id ++ exchanged calls (run calls st).1).
Proof.
  induction calls as [|c calls IH]; intros st Hid Hb Hc.
  - simpl. unfold exchanged. simpl. rewrite app_nil_r.
    symmetry. apply lastn_short. unfold session.
    destruct (memories st !! id) as [m|] eqn:Hm; simpl; [|lia].
    apply (Hb id m Hm).
  - apply Forall_cons_1 in Hc as [(Hi & Hq & Hs) Hc].
    destruct (answer_question_successful (world c) st (user_question c) id
                Hid Hb Hq Hs) as (a & st1 & E & S1).
    pose proof (answer_question_bounded (world c) st (user_question c)
                  (Some id) Hb) as Hb1.
    cbn [run]. rewrite Hi, E in *. cbn [snd] in Hb1.
    specialize (IH st1 Hid Hb1 Hc).
    destruct (run calls st1) as [rs st2]. cbn [fst snd] in *.
    rewrite IH, S1, lastn_app_lastn, <- app_assoc. reflexivity.
Qed.

Lemma run_length calls : forall st, length (run calls st).1 = length calls.
Proof.
  induction calls as [|c calls IH]; intros st; [reflexivity|].
  cbn [run]. destruct (answer_question _ _ _ _) as [r st1].
  specialize (IH st1). destruct (run calls st1) as [rs st2].
  simpl in *. congruence.
Qed.

(** C1: every session holds at most five exchanges after any calls, and
    after [n] successful exchanges on a new conversation its session is the
    most recent [min n 5] pairs of question and answer, oldest first. *)
Theorem memory_window :
  (forall calls st, bounded st -> bounded (run calls st).2)
  /\ (forall id calls st,
        id <> [] -> bounded st -> memories st !! id = None ->
        exchanges_on id calls ->
        session (run calls st).2 id
        = lastn 5 (exchanged calls (run calls st).1)
        /\ length (session (run calls st).2 id)
           = Nat.min (length calls) 5).
Proof.
  split; [intros calls st; apply run_bounded|].
  intros id calls st Hid Hb Hn Hc.
  pose proof (run_successful id calls st Hid Hb Hc) as H.
  unfold session at 2 in H. rewrite Hn in H. simpl in H.
  split; [exact H|]. rewrite H, length_lastn.
  unfold exchanged.
  rewrite length_zip, !length_map, run_length. lia.
Qed.

Lemma bounded_boot : bounded boot.
Proof. apply map_Forall_empty. Qed.

Lemma ask_successful id q out :
  supplied_id (ask id q out) = Some (py id)
  /\ successful (world (ask id q out)) (user_question (ask id q out)).
Proof.
  split; [reflexivity|]. unfold successful. simpl.
  repeat split; eauto.
Qed.

Lemma memory_window_witness :
  bounded (run six_calls boot).2
  /\ session (run six_calls boot).2 (py "c1")
     = lastn 5 (exchanged six_calls (run six_calls boot).1)
  /\ length (session (run six_calls boot).2 (py "c1")) = Nat.min 6 5.
Proof.
  split; [apply (proj1 memory_window six_calls boot bounded_boot)|].
  apply (proj2 memory_window (py "c1") six_calls boot).
  - discriminate.
  - apply bounded_boot.
  - apply lookup_empty.
  - repeat constructor; apply ask_successful.
Defined.

(** After six exchanges the first one is gone. *)
Example six_calls_session :
  session (run six_calls boot).2 (py "c1")
  = [(py "q2", py "a2"); (py "q3", py "a3"); (py "q4", py "a4");
     (py "q5", py "a5"); (py "q6", py "a6")].
Proof. vm_compute. reflexivity. Qed.

End Window.

(** * Further properties *)

(** ** The paths of the handler *)

Section Paths.

(** X1: the handler contains every failure.  In every world and for every
    question it returns a reply, and the memory it was given is as before
    or has exactly the exchange of the question and that reply appended. *)
Theorem handle_query_contained w DI q m :
  exists a m',
    handle_query w DI q m = (Ok a, m')
    /\ (m' = m \/ m' = save_context m q a).
Proof.
  destruct (handle_query_outcome w DI q m) as (a & m' & E & H).
  exists a, m'. split; [exact E|].
  destruct H as [[-> _]|(_ & H & _)]; [left; reflexivity | exact H].
Qed.

(** X2: when [get_retriever] itself raises, the outermost handler of
    [handle_query] answers with its fixed response and the memory is as
    before; the facade passes that response on and appends nothing. *)
Theorem retriever_construction_failure w st q cid e :
  is_empty (strip q) = false ->
  get_retriever w = Raise e ->
  (memories st !! effective_id w cid = None -> new_memory_raises w = None) ->
  (forall DI m, handle_query w DI q m = (Ok QUERY_CRITICAL, m))
  /\ answer_question w st q cid
     = (Ok {| answer := QUERY_CRITICAL;
              conversation_id := effective_id w cid |},
        with_session st (effective_id w cid)).
Proof.
  intros Hq Hr Hn.
  assert (forall DI m, handle_query w DI q m = (Ok QUERY_CRITICAL, m)) as H.
  { intros DI m. unfold handle_query, try_except. rewrite Hq, Hr. reflexivity. }
  split; [exact H|]. apply answer_question_handled; [exact Hq | exact Hn | apply H].
Qed.

Lemma retriever_construction_failure_witness :
  answer_question (with_retriever (Raise OtherException) (working []))
    boot (py "Hello") (Some (py "c1"))
  = (Ok {| answer := QUERY_CRITICAL; conversation_id := py "c1" |},
     with_session boot (py "c1")).
Proof.
  apply (retriever_construction_failure
           (with_retriever (Raise OtherException) (working []))
           boot (py "Hello") (Some (py "c1")) OtherException);
    reflexivity.
Defined.

(** X3: a failure to save is swallowed.  When the completion service
    returned a text and [save_context] raises, the caller still receives
    the sanitized text with the conversation identifier, and no exchange is
    added: the turn is missing from the history of the conversation. *)
Theorem save_failure_loses_turn w st q cid retriever docs out a e :
  is_empty (strip q) = false ->
  (memories st !! effective_id w cid = None -> new_memory_raises w = None) ->
  get_retriever w = Ok (Some retriever) ->
  retriever q = Ok docs ->
  generate w (request w (DOMAIN_INSTRUCTIONS st) q docs
                (memory_for st (effective_id w cid))) = Ok out ->
  strip_artifacts (re_raises w) out = Ok a ->
  save_context_raises w = Some e ->
  answer_question w st q cid
  = (Ok {| answer := a; conversation_id := effective_id w cid |},
     with_session st (effective_id w cid))
  /\ forall id, session (with_session st (effective_id w cid)) id
                = session st id.
Proof.
  intros Hq Hn Hr Hd Hg Ha Hs. split; [|intros id; apply with_session_session].
  apply answer_question_handled; [exact Hq | exact Hn |].
  unfold handle_query, try_except. rewrite Hq, Hr, Hd, Hg, Ha, Hs. reflexivity.
Qed.

Lemma save_failure_loses_turn_witness :
  answer_question (with_save (Some OtherException) (working (py "Final Answer: 42")))
    boot (py "What is the answer?") (Some (py "c1"))
  = (Ok {| answer := py "42"; conversation_id := py "c1" |},
     with_session boot (py "c1"))
  /\ forall id, session (with_session boot (py "c1")) id = session boot id.
Proof.
  apply (save_failure_loses_turn
           (with_save (Some OtherException) (working (py "Final Answer: 42")))
           boot (py "What is the answer?") (Some (py "c1"))
           (fun _ => Ok []) [] (py "Final Answer: 42") (py "42") OtherException);
    reflexivity.
Defined.

(** X4: a successful call.  The caller receives the sanitized form of what
    the completion service returns on the request assembled from the
    global domain instructions as they are at the call, the passages, the
    history of the session as it stands and the question as typed; the
    session of the conversation, the stored one or a new one, receives the
    question as typed with the reply as returned. *)
Theorem answer_question_success w st q cid retriever docs out a :
  is_empty (strip q) = false ->
  (memories st !! effective_id w cid = None -> new_memory_raises w = None) ->
  get_retriever w = Ok (Some retriever) ->
  retriever q = Ok docs ->
  generate w (request w (DOMAIN_INSTRUCTIONS st) q docs
                (memory_for st (effective_id w cid))) = Ok out ->
  strip_artifacts (re_raises w) out = Ok a ->
  save_context_raises w = None ->
  answer_question w st q cid
  = (Ok {| answer := a; conversation_id := effective_id w cid |},
     set_memories st
       (<[effective_id w cid :=
            save_context (memory_for st (effective_id w cid)) q a]>
          (memories st)))
  /\ exchanges (save_context (memory_for st (effective_id w cid)) q a)
     = lastn (k (memory_for st (effective_id w cid)))
         (session st (effective_id w cid) ++ [(q, a)]).
Proof.
  intros Hq Hn Hr Hd Hg Ha Hs. split.
  - apply answer_question_handled; [exact Hq | exact Hn |].
    unfold handle_query, try_except.
    rewrite Hq, Hr, Hd, Hg, Ha, Hs. reflexivity.
  - unfold save_context, session, memory_for. simpl.
    destruct (memories st !! effective_id w cid); reflexivity.
Qed.

Lemma answer_question_success_witness :
  answer_question (working (py "Final Answer: 42")) boot
    (py " What is the answer? ") (Some (py "c1"))
  = (Ok {| answer := py "42"; conversation_id := py "c1" |},
     set_memories boot
       (<[py "c1" := save_context (memory_for boot (py "c1"))
                       (py " What is the answer? ") (py "42")]>
          (memories boot))).
Proof.
  apply (answer_question_success (working (py "Final Answer: 42")) boot
           (py " What is the answer? ") (Some (py "c1"))
           (fun _ => Ok []) [] (py "Final Answer: 42") (py "42"));
    reflexivity.
Defined.

(** X5: the constructor of the memory matters to new conversations only.
    When it raises, a question on a conversation without session gets the
    fixed response about the set-up and the globals are as before,
    whatever the other collaborators would do; a conversation that has a
    session is served as if the constructor worked. *)
Theorem memory_setup_failure w st q cid e :
  is_empty (strip q) = false ->
  new_memory_raises w = Some e ->
  (memories st !! effective_id w cid = None ->
   answer_question w st q cid
   = (Ok {| answer := MEMORY_SETUP_FAILED;
            conversation_id := effective_id w cid |}, st))
  /\ (is_Some (memories st !! effective_id w cid) ->
      answer_question w st q cid
      = answer_question (with_memory_constructor None w) st q cid).
Proof.
  intros Hq He. split.
  - intros Hn. rewrite answer_question_eq. cbv zeta. rewrite Hq.
    rewrite bool_decide_eq_true_2; [reflexivity|].
    split; [exact Hn | congruence].
  - intros [m Hm]. rewrite !answer_question_eq. cbv zeta. rewrite Hq.
    change (effective_id (with_memory_constructor None w) cid)
      with (effective_id w cid).
    rewrite !bool_decide_eq_false_2 by (intros [? _]; congruence).
    reflexivity.
Qed.

Lemma memory_setup_failure_witness :
  answer_question (with_memory_constructor (Some OtherException) (working []))
    boot (py "Hello") None
  = (Ok {| answer := MEMORY_SETUP_FAILED;
           conversation_id :=
             effective_id
               (with_memory_constructor (Some OtherException) (working []))
               None |}, boot).
Proof.
  apply (memory_setup_failure
           (with_memory_constructor (Some OtherException) (working []))
           boot (py "Hello") None OtherException); reflexivity.
Defined.

End Paths.

(** ** Conversations do not interfere *)

Section Isolation.

Lemma answer_question_frame w st q cid :
  DOMAIN_INSTRUCTIONS (answer_question w st q cid).2 = DOMAIN_INSTRUCTIONS st
  /\ (forall id, id <> effective_id w cid ->
        memories (answer_question w st q cid).2 !! id = memories st !! id)
  /\ (forall id, is_Some (memories st !! id) ->
        is_Some (memories (answer_question w st q cid).2 !! id)).
Proof.
  destruct (answer_question_outcome w st q cid) as (a & st' & -> & H).
  cbn [snd]. destruct H as [->|[m ->]]; [auto|].
  split; [reflexivity|]. split.
  - intros id Hid. cbn [memories set_memories].
    apply lookup_insert_ne. congruence.
  - intros id Hs. cbn [memories set_memories].
    destruct (decide (effective_id w cid = id)) as [->|Hne].
    + rewrite lookup_insert_eq. eauto.
    + rewrite lookup_insert_ne by exact Hne. exact Hs.
Qed.

(** X6: what a run of calls leaves alone.  The domain instructions are as
    before, no session is ever removed, and the sessions of the
    conversations to which no call belongs are untouched: none is changed
    and none is created. *)
Theorem run_frame calls : forall st,
  DOMAIN_INSTRUCTIONS (run calls st).2 = DOMAIN_INSTRUCTIONS st
  /\ (forall id, is_Some (memories st !! id) ->
        is_Some (memories (run calls st).2 !! id))
  /\ (forall id, id ∉ map conversation calls ->
        memories (run calls st).2 !! id = memories st !! id).
Proof.
  induction calls as [|c calls IH]; intros st; [auto|].
  cbn [run].
  pose proof (answer_question_frame (world c) st (user_question c)
                (supplied_id c)) as (HD & HF & HS).
  destruct (answer_question _ _ _ _) as [r st1]. cbn [snd] in *.
  destruct (IH st1) as (ID & IS & IF).
  destruct (run calls st1) as [rs st2]. cbn [snd] in *.
  split; [congruence|]. split.
  - intros id H. apply IS, HS, H.
  - intros id Hid. cbn [map] in Hid. apply not_elem_of_cons in Hid as [Hc Hid].
    rewrite (IF id Hid). apply HF. exact Hc.
Qed.

(** A call reads of the globals only the domain instructions and the
    session of its conversation. *)
Lemma answer_question_local w st1 st2 q cid :
  DOMAIN_INSTRUCTIONS st1 = DOMAIN_INSTRUCTIONS st2 ->
  memories st1 !! effective_id w cid = memories st2 !! effective_id w cid ->
  (answer_question w st1 q cid).1 = (answer_question w st2 q cid).1
  /\ memories (answer_question w st1 q cid).2 !! effective_id w cid
     = memories (answer_question w st2 q cid).2 !! effective_id w cid.
Proof.
  intros HD HM. rewrite !answer_question_eq. cbv zeta.
  unfold memory_for. rewrite HD, HM.
  destruct (is_empty (strip q)); [auto|].
  destruct (bool_decide _); [auto|].
  cbn [fst snd memories set_memories]. rewrite !lookup_insert_eq. auto.
Qed.

(** X7: conversations do not interfere.  In any run of calls, on any
    worlds, the session of a conversation at the end and the outcomes its
    calls received are those of the run of its own calls alone, started
    from any globals with the same domain instructions and the same session
    of that conversation: the calls that come in between and the sessions
    of the other conversations change nothing for it. *)
Theorem run_isolated id calls : forall st1 st2,
  DOMAIN_INSTRUCTIONS st1 = DOMAIN_INSTRUCTIONS st2 ->
  memories st1 !! id = memories st2 !! id ->
  memories (run calls st1).2 !! id
  = memories (run (calls_on id calls) st2).2 !! id
  /\ outcomes_on id calls (run calls st1).1 = (run (calls_on id calls) st2).1.
Proof.
  induction calls as [|c calls IH]; intros st1 st2 HD HM; [auto|].
  unfold calls_on. rewrite filter_cons. fold (calls_on id calls).
  cbn [run].
  pose proof (answer_question_frame (world c) st1 (user_question c)
                (supplied_id c)) as (FD & FF & _).
  destruct (decide (conversation c = id)) as [Hc|Hc].
  - unfold conversation in Hc.
    pose proof (answer_question_local (world c) st1 st2 (user_question c)
                  (supplied_id c) HD) as L.
    rewrite Hc in L. destruct (L HM) as [L1 L2].
    pose proof (answer_question_frame (world c) st2 (user_question c)
                  (supplied_id c)) as (FD2 & _ & _).
    cbn [run].
    destruct (answer_question (world c) st1 _ _) as [r1 s1].
    destruct (answer_question (world c) st2 _ _) as [r2 s2].
    cbn [fst snd] in *. subst r2.
    assert (DOMAIN_INSTRUCTIONS s1 = DOMAIN_INSTRUCTIONS s2) as HD' by congruence.
    destruct (IH s1 s2 HD' L2) as [I1 I2].
    destruct (run calls s1) as [rs1 t1].
    destruct (run (calls_on id calls) s2) as [rs2 t2].
    cbn [fst snd outcomes_on] in *.
    rewrite decide_True by exact Hc. split; [exact I1 | congruence].
  - destruct (answer_question (world c) st1 _ _) as [r1 s1].
    cbn [fst snd] in *.
    assert (memories s1 !! id = memories st2 !! id) as HM'.
    { rewrite <- HM. apply FF. intros E. apply Hc. symmetry. exact E. }
    assert (DOMAIN_INSTRUCTIONS s1 = DOMAIN_INSTRUCTIONS st2) as HD' by congruence.
    destruct (IH s1 st2 HD' HM') as [I1 I2].
    destruct (run calls s1) as [rs1 t1]. cbn [fst snd outcomes_on] in *.
    rewrite decide_False by exact Hc. auto.
Qed.

Lemma run_isolated_witness :
  memories (run [ask "c1" "q1" "a1"; ask "c2" "q2" "a2"; ask "c1" "q3" "a3"]
              boot).2 !! py "c1"
  = memories (run [ask "c1" "q1" "a1"; ask "c1" "q3" "a3"] boot).2 !! py "c1"
  /\ outcomes_on (py "c1")
       [ask "c1" "q1" "a1"; ask "c2" "q2" "a2"; ask "c1" "q3" "a3"]
       (run [ask "c1" "q1" "a1"; ask "c2" "q2" "a2"; ask "c1" "q3" "a3"]
          boot).1
     = (run [ask "c1" "q1" "a1"; ask "c1" "q3" "a3"] boot).1.
Proof.
  apply (run_isolated (py "c1")
           [ask "c1" "q1" "a1"; ask "c2" "q2" "a2"; ask "c1" "q3" "a3"]
           boot boot); reflexivity.
Defined.

End Isolation.

(** ** The history handed to the model *)

Section History.

Lemma startswith_prefix_match old s :
  startswith old s = prefix_match false (map re.LITERAL old) s.
Proof.
  revert s. induction old as [|a old IH]; intros [|b s]; simpl;
    try reflexivity.
  rewrite IH, N.eqb_sym. reflexivity.
Qed.

Lemma startswith_long pat u X X' :
  (length pat <= length u)%nat ->
  startswith pat (u ++ X) = startswith pat (u ++ X').
Proof.
  intros H. rewrite !startswith_prefix_match.
  apply prefix_match_long. rewrite length_map. exact H.
Qed.

Lemma startswith_compatible a b X :
  startswith a (b ++ X) = true -> compatible a b = true.
Proof.
  revert b. induction a as [|x a IH]; intros [|y b]; simpl; try reflexivity.
  intros [-> H]%andb_prop. simpl. eauto.
Qed.

Lemma startswith_drop u : forall pat Y,
  startswith pat (u ++ Y) = true -> startswith (drop (length u) pat) Y = true.
Proof.
  induction u as [|c u IH]; intros pat Y; [auto|].
  destruct pat as [|a pat]; [reflexivity|].
  cbn [app length drop startswith]. intros [_ H]%andb_prop. apply IH, H.
Qed.

Lemma apart_left pat new j :
  apart pat new = true -> (j < length pat)%nat ->
  compatible (drop j pat) new = false.
Proof.
  intros [H _]%andb_prop Hj. rewrite forallb_forall in H.
  specialize (H j). rewrite negb_true_iff in H. apply H, in_seq. lia.
Qed.

Lemma apart_right pat new i :
  apart pat new = true -> (i < length new)%nat ->
  compatible pat (drop i new) = false.
Proof.
  intros [_ H]%andb_prop Hi. rewrite forallb_forall in H.
  specialize (H i). rewrite negb_true_iff in H. apply H, in_seq. lia.
Qed.

(** An occurrence of [pat] does not run into a copy of [new]. *)
Lemma startswith_across pat new u X :
  apart pat new = true -> (length u < length pat)%nat ->
  startswith pat (u ++ new ++ X) = false.
Proof.
  intros Ha Hu. destruct (startswith pat _) eqn:E; [|reflexivity].
  apply startswith_drop, startswith_compatible in E.
  rewrite (apart_left _ _ _ Ha Hu) in E. discriminate.
Qed.

(** A replacement does not complete an occurrence of [pat] that the text
    before it began. *)
Lemma replace_not_created pat old new s :
  apart pat new = true -> forall u,
  startswith pat (u ++ replace_from old new s O) = true ->
  startswith pat (u ++ s) = true.
Proof.
  intros Ha. induction s as [|c s IH]; intros u; cbn [replace_from]; [auto|].
  destruct (startswith old (c :: s)) eqn:E.
  - destruct (Nat.lt_ge_cases (length u) (length pat)) as [Hu|Hu].
    + rewrite startswith_across by assumption. discriminate.
    + rewrite (startswith_long pat u _ (c :: s)) by exact Hu. auto.
  - intros H.
    replace (u ++ c :: s) with ((u ++ [c]) ++ s)
      by (rewrite <- app_assoc; reflexivity).
    apply IH. rewrite <- app_assoc. exact H.
Qed.

Lemma contains_cons pat c s :
  contains pat (c :: s) = startswith pat (c :: s) || contains pat s.
Proof. reflexivity. Qed.

(** A text in which [pat] can begin nowhere adds no occurrence in front of
    a text without occurrence. *)
Lemma contains_app_apart pat (a X : str) :
  (forall i, (i < length a)%nat -> compatible pat (drop i a) = false) ->
  contains pat X = false -> contains pat (a ++ X) = false.
Proof.
  intros Ha HX. induction a as [|c a IH]; [exact HX|].
  cbn [app]. rewrite contains_cons. apply orb_false_intro.
  - destruct (startswith pat (c :: a ++ X)) eqn:E; [|reflexivity].
    apply (startswith_compatible pat (c :: a) X) in E.
    pose proof (Ha O ltac:(simpl; lia)) as F. cbn [drop] in F.
    congruence.
  - apply IH. intros i Hi. apply (Ha (S i)). simpl. lia.
Qed.

Lemma contains_suffix pat s t :
  contains pat s = false -> t `suffix_of` s -> startswith pat t = false.
Proof.
  induction s as [|c s IH]; intros H Ht.
  - apply suffix_nil_inv in Ht. subst t.
    simpl in H. apply orb_false_elim in H as [H _]. exact H.
  - rewrite contains_cons in H. apply orb_false_elim in H as [H1 H2].
    destruct t as [|x t].
    + destruct pat; [discriminate | reflexivity].
    + apply suffix_cons_inv in Ht as [->|Ht]; [exact H1 | auto].
Qed.

(** After [replace(old, new)] the text holds no [pat], when [pat] and [new]
    lie apart and [pat] stood in the text only where [old] did. *)
Lemma replace_free pat old new :
  pat <> [] -> apart pat new = true -> forall s skip,
  (forall t, t `suffix_of` s -> startswith pat t = true ->
             startswith old t = true) ->
  contains pat (replace_from old new s skip) = false.
Proof.
  intros Hp Ha. induction s as [|c s IH]; intros skip Hs.
  - destruct pat; [contradiction|]. destruct skip; reflexivity.
  - assert (forall t, t `suffix_of` s -> startswith pat t = true ->
                      startswith old t = true) as Hs'.
    { intros t Ht. apply Hs, suffix_cons_r, Ht. }
    destruct skip as [|skip]; cbn [replace_from]; [|auto].
    destruct (startswith old (c :: s)) eqn:E.
    + apply contains_app_apart; [|auto].
      intros i Hi. apply apart_right; assumption.
    + rewrite contains_cons, (IH O Hs'), orb_false_r.
      destruct (startswith pat (c :: replace_from old new s O)) eqn:E';
        [|reflexivity].
      apply (replace_not_created pat old new s Ha [c]) in E'.
      cbn [app] in E'.
      assert (startswith old (c :: s) = true) as F
        by (apply Hs; [reflexivity | exact E']).
      congruence.
Qed.

(** [replace(old, new)] leaves no [old], when [old] and [new] lie apart. *)
Lemma replace_removes old new s :
  old <> [] -> apart old new = true -> contains old (replace old new s) = false.
Proof. intros Ho Ha. apply replace_free; auto. Qed.

(** [replace(old, new)] brings no [pat] into a text without [pat], when
    [pat] and [new] lie apart. *)
Lemma replace_keeps_free pat old new s :
  pat <> [] -> apart pat new = true -> contains pat s = false ->
  contains pat (replace old new s) = false.
Proof.
  intros Hp Ha Hs. apply replace_free; auto.
  intros t Ht E. rewrite (contains_suffix pat s t Hs Ht) in E. discriminate.
Qed.

Lemma header_apart pat :
  forallb (fun i => negb (compatible pat (drop i (py "Conversation History:" ++ [LF]))))
    (seq 0 (length (py "Conversation History:" ++ [LF]))) = true ->
  forall X, contains pat X = false ->
  contains pat (py "Conversation History:" ++ [LF] ++ X) = false.
Proof.
  intros H X HX. rewrite app_assoc. apply contains_app_apart; [|exact HX].
  intros i Hi. rewrite forallb_forall in H. specialize (H i).
  rewrite negb_true_iff in H. apply H, in_seq. lia.
Qed.

(** X8: the history handed to the model never shows the labels of the
    memory.  Whatever the session holds and whether or not it can be read,
    the formatted history contains neither [Human: ] nor [Assistant: ]:
    every occurrence, also one inside a stored question or answer, has
    become [User: ] or [AI: ]. *)
Theorem format_chat_history_labels w memory :
  contains (py "Human: ") (format_chat_history w memory) = false
  /\ contains (py "Assistant: ") (format_chat_history w memory) = false.
Proof.
  unfold format_chat_history.
  destruct (load_memory_raises w); [split; reflexivity|].
  destruct (is_empty _); [split; reflexivity|].
  set (x := load_memory_variables memory).
  assert (contains (py "Human: ") (replace (py "Human: ") (py "User: ") x)
          = false) as H1
    by (apply replace_removes; [discriminate | reflexivity]).
  split.
  - apply header_apart; [reflexivity|].
    apply replace_keeps_free; [discriminate | reflexivity | exact H1].
  - apply header_apart; [reflexivity|].
    apply replace_removes; [discriminate | reflexivity].
Qed.

End History.

(** ** The context of a request *)

Section Context.

Lemma context_passages w DI q docs m :
  context (request w DI q docs m) = join [LF; LF] (passages docs).
Proof. reflexivity. Qed.

Lemma passages_app d1 d2 : passages (d1 ++ d2) = passages d1 ++ passages d2.
Proof. unfold passages. rewrite map_app, filter_app. reflexivity. Qed.

Lemma passages_nonempty docs : Forall (fun p => p <> []) (passages docs).
Proof.
  unfold passages. apply Forall_forall. intros p Hp.
  apply list_elem_of_filter in Hp as [Hp _]. destruct p; [discriminate|].
  discriminate.
Qed.

Lemma join_app sep (a b : list str) :
  a <> [] -> b <> [] -> join sep (a ++ b) = join sep a ++ sep ++ join sep b.
Proof.
  intros Ha Hb. induction a as [|p a IH]; [contradiction|].
  destruct a as [|p' a].
  - destruct b; [contradiction | reflexivity].
  - change (join sep ((p :: p' :: a) ++ b))
      with (p ++ sep ++ join sep ((p' :: a) ++ b)).
    rewrite IH by discriminate.
    change (join sep (p :: p' :: a)) with (p ++ sep ++ join sep (p' :: a)).
    rewrite <- !app_assoc. reflexivity.
Qed.

Lemma join_empty sep (l : list str) :
  Forall (fun p => p <> []) l ->
  is_empty (join sep l) = match l with [] => true | _ :: _ => false end.
Proof.
  intros H. destruct H as [|p l Hp _]; [reflexivity|].
  destruct p as [|c p]; [contradiction|].
  destruct l; reflexivity.
Qed.

(** X9: the context of the passages of two retrievals put together is the
    two contexts with a blank line between them, and just the other one
    when one of them is empty: passages without content leave no trace, not
    even a separator. *)
Theorem context_app w DI q m d1 d2 :
  context (request w DI q (d1 ++ d2) m) =
  if is_empty (context (request w DI q d1 m))
  then context (request w DI q d2 m)
  else if is_empty (context (request w DI q d2 m))
  then context (request w DI q d1 m)
  else context (request w DI q d1 m) ++ [LF; LF]
       ++ context (request w DI q d2 m).
Proof.
  rewrite !context_passages, passages_app.
  rewrite !join_empty by apply passages_nonempty.
  destruct (passages d1) as [|p1 l1] eqn:E1; [reflexivity|].
  destruct (passages d2) as [|p2 l2] eqn:E2.
  - rewrite app_nil_r. reflexivity.
  - apply join_app; discriminate.
Qed.

(** X10: the context is empty exactly when no passage has content, in
    particular when the retriever returns no passage. *)
Theorem context_empty w DI q m docs :
  is_empty (context (request w DI q docs m))
  = forallb (fun d => is_empty (page_content d)) docs.
Proof.
  rewrite context_passages, join_empty by apply passages_nonempty.
  unfold passages. induction docs as [|d docs IH]; [reflexivity|].
  cbn [map forallb]. rewrite filter_cons.
  destruct (page_content d) as [|c p].
  - rewrite decide_False by (simpl; discriminate). exact IH.
  - rewrite decide_True by reflexivity. reflexivity.
Qed.

Lemma contains_here p b : contains p (p ++ b) = true.
Proof.
  assert (startswith p (p ++ b) = true) as H.
  { induction p as [|c p IH]; [reflexivity|].
    simpl. rewrite N.eqb_refl. exact IH. }
  destruct (p ++ b); simpl in *; rewrite H; reflexivity.
Qed.

Lemma contains_app_r p a b : contains p b = true -> contains p (a ++ b) = true.
Proof.
  intros H. induction a as [|c a IH]; [exact H|].
  cbn [app]. rewrite contains_cons, IH. apply orb_true_r.
Qed.

Lemma join_holds sep (l : list str) p :
  p ∈ l -> exists a b, join sep l = a ++ p ++ b.
Proof.
  induction l as [|p' l IH]; intros Hp; [inversion Hp|].
  apply elem_of_cons in Hp as [->|Hp].
  - destruct l as [|p'' l].
    + exists [], []. simpl. rewrite app_nil_r. reflexivity.
    + exists [], (sep ++ join sep (p'' :: l)). reflexivity.
  - destruct (IH Hp) as (a & b & E). destruct l as [|p'' l]; [inversion Hp|].
    exists (p' ++ sep ++ a), b.
    change (join sep (p' :: p'' :: l)) with (p' ++ sep ++ join sep (p'' :: l)).
    rewrite E, <- !app_assoc. reflexivity.
Qed.

(** X11: no passage is lost.  The content of every retrieved document
    stands in the context, as it is. *)
Theorem context_holds_passage w DI q m docs d :
  d ∈ docs ->
  contains (page_content d) (context (request w DI q docs m)) = true.
Proof.
  intros Hd. rewrite context_passages.
  destruct (page_content d) as [|c p] eqn:E.
  { destruct (join _ _); reflexivity. }
  assert ((c :: p) ∈ passages docs) as Hp.
  { unfold passages. apply list_elem_of_filter. split; [reflexivity|].
    rewrite <- E. apply list_elem_of_In, in_map, list_elem_of_In. exact Hd. }
  destruct (join_holds [LF; LF] _ _ Hp) as (a & b & ->).
  apply contains_app_r, contains_here.
Qed.

Lemma context_holds_passage_witness :
  contains (py "Open 9 to 5")
    (context (request (working []) [] (py "hours?")
                [{| page_content := py "We are in Lisbon" |};
                 {| page_content := [] |};
                 {| page_content := py "Open 9 to 5" |}]
                {| k := 5; exchanges := [] |})) = true.
Proof.
  apply (context_holds_passage (working []) [] (py "hours?")
           {| k := 5; exchanges := [] |}
           [{| page_content := py "We are in Lisbon" |};
            {| page_content := [] |};
            {| page_content := py "Open 9 to 5" |}]
           {| page_content := py "Open 9 to 5" |}).
  apply list_elem_of_further, list_elem_of_further, list_elem_of_here.
Defined.

End Context.

(** ** The language model client *)

Section Client.

(** X12: without an API key.  When the environment gave no key, or an empty
    one, [get_llm] raises before it builds a client, and the exception is no
    failure of the provider.  A question whose retrieval returned is then
    answered with the response for an unexpected error, not with the one
    for a failed request; the completion service is not called and the
    memory is as before. *)
Theorem missing_api_key key constructor w DI q m retriever docs :
  key = None \/ key = Some [] ->
  is_empty (strip q) = false ->
  get_retriever w = Ok (Some retriever) ->
  retriever q = Ok docs ->
  get_llm key constructor = Raise OtherException
  /\ handle_query (with_llm (get_llm key constructor) w) DI q m
     = (Ok CHAIN_UNEXPECTED, m).
Proof.
  intros Hk Hq Hr Hd.
  assert (get_llm key constructor = Raise OtherException) as E
    by (destruct Hk as [-> | ->]; reflexivity).
  split; [exact E|]. rewrite E.
  unfold handle_query, try_except, generate.
  cbn [get_retriever with_llm get_llm_raises raised].
  rewrite Hq, Hr, Hd. reflexivity.
Qed.

Lemma missing_api_key_witness :
  get_llm None None = Raise OtherException
  /\ handle_query (with_llm (get_llm None None) (working (py "Hi!")))
       [] (py "Hello") {| k := 5; exchanges := [] |}
     = (Ok CHAIN_UNEXPECTED, {| k := 5; exchanges := [] |}).
Proof.
  apply (missing_api_key None None (working (py "Hi!")) [] (py "Hello")
           {| k := 5; exchanges := [] |} (fun _ => Ok []) []);
    (left; reflexivity) || reflexivity.
Defined.

(** X13: with an API key.  When the constructor works, [get_llm] returns a
    client of the model [gpt-4o] that holds the key of the environment, and
    the generation is what the chain returns; when the constructor raises,
    [get_llm] raises the same exception, and the class of that exception
    decides the response of the handler. *)
Theorem get_llm_with_key c key constructor w DI q m retriever docs :
  is_empty (strip q) = false ->
  get_retriever w = Ok (Some retriever) ->
  retriever q = Ok docs ->
  match constructor with
  | None =>
      get_llm (Some (c :: key)) constructor
      = Ok {| model := py "gpt-4o"; temperature := (2, 1%nat);
              api_key := c :: key |}
      /\ forall input,
           generate (with_llm (get_llm (Some (c :: key)) constructor) w) input
           = chain_invoke w input
  | Some e =>
      get_llm (Some (c :: key)) constructor = Raise e
      /\ handle_query (with_llm (get_llm (Some (c :: key)) constructor) w)
           DI q m
         = (Ok match e with
               | LangChainException => CHAIN_FAILED
               | OtherException => CHAIN_UNEXPECTED
               end, m)
  end.
Proof.
  intros Hq Hr Hd. destruct constructor as [e|].
  - split; [reflexivity|].
    unfold handle_query, try_except, generate.
    cbn [get_retriever with_llm get_llm_raises raised get_llm].
    rewrite Hq, Hr, Hd. destruct e; reflexivity.
  - split; [reflexivity | intros input; reflexivity].
Qed.

Lemma get_llm_with_key_witness :
  get_llm (Some (py "sk-1")) (Some LangChainException)
  = Raise LangChainException
  /\ handle_query
       (with_llm (get_llm (Some (py "sk-1")) (Some LangChainException))
          (working (py "Hi!")))
       [] (py "Hello") {| k := 5; exchanges := [] |}
     = (Ok CHAIN_FAILED, {| k := 5; exchanges := [] |}).
Proof.
  apply (get_llm_with_key 115 (py "k-1") (Some LangChainException)
           (working (py "Hi!")) [] (py "Hello")
           {| k := 5; exchanges := [] |} (fun _ => Ok []) []);
    reflexivity.
Defined.

End Client.

(** ** More on the sanitizer *)

Section SanitizerMore.

(** X14: the placeholder never reaches the caller.  Whatever the text, the
    result of the sanitizer holds no occurrence of the placeholder, in any
    spelling of its letters. *)
Theorem sanitize_no_placeholder x : re.search PLACEHOLDER (sanitize x) = false.
Proof.
  rewrite sanitize_passes. unfold rewrite3, re.search, re.sub.
  rewrite (search_from_placeholder_any _
             (length (re.subx PLACEHOLDER CORRECT_EMAIL
                        (length (rewrite2 (rewrite1 x)))
                        (rewrite2 (rewrite1 x)) O))).
  apply search_from_strip, subx_placeholder_gone.
Qed.

Lemma is_label_blank x : forallb isspace x = true -> is_label x = false.
Proof.
  destruct x as [|c x]; [reflexivity|]. simpl forallb.
  intros [Hc _]%andb_prop. destruct (is_label (c :: x)) eqn:E; [|reflexivity].
  apply is_label_head in E. congruence.
Qed.

(** X15: a text of white space only, or the empty text, is sanitized to
    the empty text. *)
Theorem sanitize_blank x : forallb isspace x = true -> sanitize x = [].
Proof.
  intros H. rewrite sanitize_passes.
  rewrite (rewrite1_no_label x (is_label_blank x H)), (blank_strip x H).
  reflexivity.
Qed.

Lemma sanitize_blank_witness :
  forallb isspace [32; LF; 9] = true /\ sanitize [32; LF; 9] = [].
Proof.
  split; [reflexivity|]. apply (sanitize_blank [32; LF; 9]). reflexivity.
Defined.

(** X16: a leading label is dropped.  A text that begins with the label, in
    any spelling of its letters, is sanitized to what the text after the
    label is sanitized to, provided that text does not begin with the label
    again. *)
Theorem sanitize_leading_label l rest :
  is_label l = true -> length l = 13%nat -> is_label rest = false ->
  sanitize (l ++ rest) = sanitize rest.
Proof.
  intros Hl Hn Hr. rewrite !sanitize_passes.
  rewrite (rewrite1_label l rest Hl Hn), (rewrite1_no_label rest Hr).
  reflexivity.
Qed.

Lemma sanitize_leading_label_witness :
  is_label (py "FINAL answer:") = true
  /\ sanitize (py "FINAL answer:" ++ py "  Paris.") = sanitize (py "  Paris.").
Proof.
  split; [reflexivity|].
  apply (sanitize_leading_label (py "FINAL answer:") (py "  Paris."));
    reflexivity.
Defined.

Lemma sub_placeholder_app_witness :
  is_placeholder (py "[Email Protected]") = true
  /\ re.sub PLACEHOLDER CORRECT_EMAIL
       (py "write to " ++ py "[Email Protected]" ++ py " or [email protected]")
     = re.sub PLACEHOLDER CORRECT_EMAIL (py "write to ") ++ CORRECT_EMAIL
       ++ re.sub PLACEHOLDER CORRECT_EMAIL (py " or [email protected]").
Proof.
  split; [reflexivity|].
  apply (sub_placeholder_app (py "write to ") (py "[Email Protected]")
           (py " or [email protected]") CORRECT_EMAIL); reflexivity.
Defined.

Lemma sub_line_first_witness :
  re.sub LINE_LABEL [LF]
    (py "Thought: done" ++ LF :: py "  " ++ py "final answer:" ++ py " Paris")
  = py "Thought: done" ++ LF :: re.sub LINE_LABEL [LF] (lstrip (py " Paris")).
Proof.
  apply (sub_line_first (py "Thought: done") (py "  ") (py "final answer:")
           (py " Paris")); [|reflexivity..].
  repeat constructor; discriminate.
Defined.

Lemma sanitize_idempotent_only_when_clean_witness :
  sanitize (sanitize (py "hello")) = sanitize (py "hello")
  /\ re.search LEADING_LABEL (sanitize (py "hello")) = false
  /\ re.search LINE_LABEL (sanitize (py "hello")) = false.
Proof.
  split; [reflexivity|].
  apply (sanitize_idempotent_only_when_clean (py "hello")). reflexivity.
Defined.

End SanitizerMore.

(** ** Runs of calls *)

Section Runs.

(** What one call does to the session of its conversation: nothing, or the
    append of the question with the reply the caller received. *)
Lemma answer_question_effect w st q cid :
  exists a,
    (answer_question w st q cid).1
    = Ok {| answer := a; conversation_id := effective_id w cid |}
    /\ (session (answer_question w st q cid).2 (effective_id w cid)
        = session st (effective_id w cid)
        \/ session (answer_question w st q cid).2 (effective_id w cid)
           = lastn (k (memory_for st (effective_id w cid)))
               (session st (effective_id w cid) ++ [(q, a)])).
Proof.
  rewrite answer_question_eq. cbv zeta.
  destruct (is_empty (strip q)); [eexists; split; [reflexivity | auto]|].
  destruct (bool_decide _); [eexists; split; [reflexivity | auto]|].
  destruct (handle_query_outcome w (DOMAIN_INSTRUCTIONS st) q
              (memory_for st (effective_id w cid))) as (a & m' & E & H).
  rewrite E. cbn [fst snd]. exists a. split; [reflexivity|].
  unfold session at 1 3. cbn [memories set_memories].
  rewrite lookup_insert_eq. cbn [from_option].
  assert (exchanges (memory_for st (effective_id w cid))
          = session st (effective_id w cid)) as Em.
  { unfold session, memory_for.
    destruct (memories st !! effective_id w cid); reflexivity. }
  assert (m' = memory_for st (effective_id w cid)
          \/ m' = save_context (memory_for st (effective_id w cid)) q a)
    as [-> | ->].
  { destruct H as [[-> _]|(_ & H & _)]; auto. }
  - left. exact Em.
  - right. unfold save_context. cbn [exchanges]. rewrite Em. reflexivity.
Qed.

(** X20: every call of a run is answered.  Whatever the worlds and the
    questions, blank ones included, each call receives a dictionary and no
    exception, and the dictionary carries the identifier of the
    conversation of the call. *)
Theorem run_answers calls : forall st,
  Forall2 (fun c r => exists a,
             r = Ok {| answer := a; conversation_id := conversation c |})
    calls (run calls st).1.
Proof.
  induction calls as [|c calls IH]; intros st; [constructor|].
  cbn [run].
  destruct (answer_question_outcome (world c) st (user_question c)
              (supplied_id c)) as (a & st1 & -> & _).
  specialize (IH st1). destruct (run calls st1) as [rs st2].
  constructor; [exists a; reflexivity | exact IH].
Qed.

(** X21: the memory holds only what happened.  After any run, every
    exchange in the session of a conversation was there before the run or
    is the question of a call of that conversation together with the
    answer this call returned. *)
Theorem session_provenance calls : forall st id p,
  p ∈ session (run calls st).2 id ->
  p ∈ session st id
  \/ exists i c,
       calls !! i = Some c /\ conversation c = id /\ user_question c = p.1
       /\ (run calls st).1 !! i
          = Some (Ok {| answer := p.2; conversation_id := id |}).
Proof.
  induction calls as [|c calls IH]; intros st id p Hp; [left; exact Hp|].
  cbn [run] in *.
  pose proof (answer_question_frame (world c) st (user_question c)
                (supplied_id c)) as (_ & HF & _).
  destruct (answer_question_effect (world c) st (user_question c)
              (supplied_id c)) as (a & Ha & He).
  destruct (answer_question (world c) st _ _) as [r st1].
  cbn [fst snd] in *. subst r.
  specialize (IH st1 id p). destruct (run calls st1) as [rs st2].
  cbn [fst snd] in *.
  destruct (IH Hp) as [H1|(i & c' & Hi & Hc & Hq & Hr)].
  - destruct (decide (conversation c = id)) as [E|NE].
    + unfold conversation in E. rewrite E in He.
      destruct He as [He|He]; rewrite He in H1; [left; exact H1|].
      apply subseteq_drop in H1. apply elem_of_app in H1 as [H1|H1];
        [left; exact H1|].
      apply list_elem_of_singleton in H1. subst p. right.
      exists O, c. cbn [fst snd]. rewrite E.
      repeat split; reflexivity || exact E.
    + left. unfold session in *. rewrite <- (HF id); [exact H1|].
      intros E. apply NE. symmetry. exact E.
  - right. exists (S i), c'. auto.
Qed.

Lemma session_provenance_witness :
  (py "q6", py "a6") ∈ session (run six_calls boot).2 (py "c1")
  /\ ((py "q6", py "a6") ∈ session boot (py "c1")
      \/ exists i c,
           six_calls !! i = Some c /\ conversation c = py "c1"
           /\ user_question c = (py "q6", py "a6").1
           /\ (run six_calls boot).1 !! i
              = Some (Ok {| answer := (py "q6", py "a6").2;
                            conversation_id := py "c1" |})).
Proof.
  assert ((py "q6", py "a6") ∈ session (run six_calls boot).2 (py "c1")) as H.
  { rewrite six_calls_session.
    do 4 apply list_elem_of_further. apply list_elem_of_here. }
  split; [exact H|].
  apply (session_provenance six_calls boot (py "c1") (py "q6", py "a6") H).
Defined.

End Runs.

(** ** The history of plain exchanges *)

Section PlainHistory.

Lemma startswith_self old s : startswith old (old ++ s) = true.
Proof.
  induction old as [|c old IH]; [reflexivity|].
  simpl. rewrite N.eqb_refl. exact IH.
Qed.

Lemma replace_from_skip old new s : forall skip,
  (skip <= length s)%nat ->
  replace_from old new s skip = replace_from old new (drop skip s) O.
Proof.
  induction s as [|c s IH]; intros [|skip] H; try reflexivity.
  cbn [replace_from drop]. apply IH. simpl in H. lia.
Qed.

(** An occurrence at the head is replaced. *)
Lemma replace_at old new s :
  old <> [] ->
  replace_from old new (old ++ s) O = new ++ replace_from old new s O.
Proof.
  intros Ho. destruct old as [|c old]; [contradiction|].
  cbn [app replace_from].
  change (c :: old ++ s) with ((c :: old) ++ s). rewrite startswith_self.
  rewrite replace_from_skip by (rewrite length_app; simpl; lia).
  replace (length (c :: old) - 1)%nat with (length old) by (simpl; lia).
  rewrite drop_app_length. reflexivity.
Qed.

(** A stretch in which no occurrence begins is copied. *)
Lemma replace_copy old new t s :
  (forall i, (i < length t)%nat -> startswith old (drop i t ++ s) = false) ->
  replace_from old new (t ++ s) O = t ++ replace_from old new s O.
Proof.
  induction t as [|c t IH]; intros H; [reflexivity|].
  cbn [app replace_from].
  pose proof (H O ltac:(simpl; lia)) as H0. cbn [drop app] in H0.
  rewrite H0. f_equal. apply IH. intros i Hi. apply (H (S i)). simpl. lia.
Qed.

Lemma no_start_within pat q Y i :
  contains pat q = false -> blocks pat Y = true ->
  startswith pat (drop i q ++ Y) = false.
Proof.
  intros Hq HY. destruct (startswith pat (drop i q ++ Y)) eqn:E; [|reflexivity].
  exfalso. destruct (Nat.le_gt_cases (length pat) (length (drop i q))) as [Hl|Hl].
  - rewrite (startswith_long pat _ Y []) in E by exact Hl.
    rewrite app_nil_r in E.
    rewrite (contains_suffix pat q _ Hq (suffix_drop q i)) in E. discriminate.
  - apply startswith_drop in E.
    destruct (drop (length (drop i q)) pat) as [|x rest] eqn:D.
    { apply (f_equal length) in D. rewrite length_drop in D. simpl in D. lia. }
    destruct Y as [|c Y]; [discriminate|].
    cbn [startswith] in E. apply andb_prop in E as [E _].
    apply N.eqb_eq in E. subst c.
    cbn [blocks] in HY. rewrite forallb_forall in HY.
    assert (In x pat) as Hx.
    { apply list_elem_of_In, (subseteq_drop (length (drop i q)) pat).
      rewrite D. apply list_elem_of_here. }
    apply HY in Hx. rewrite N.eqb_refl in Hx. discriminate.
Qed.

Lemma replace_copy_free old new q Y :
  contains old q = false -> blocks old Y = true ->
  replace_from old new (q ++ Y) O = q ++ replace_from old new Y O.
Proof.
  intros Hq HY. apply replace_copy. intros i _.
  apply no_start_within; assumption.
Qed.

Lemma replace_copy_fixed old new t s :
  forallb (fun i => negb (compatible old (drop i t))) (seq 0 (length t)) = true ->
  replace_from old new (t ++ s) O = t ++ replace_from old new s O.
Proof.
  intros H. apply replace_copy. intros i Hi.
  destruct (startswith old (drop i t ++ s)) eqn:E; [|reflexivity].
  apply startswith_compatible in E.
  rewrite forallb_forall in H. specialize (H i).
  rewrite E in H. discriminate H. apply in_seq. lia.
Qed.

Lemma join_two sep (x y : str) more :
  join sep (x :: y :: more)
  = x ++ sep ++ y ++ match more with
                     | [] => []
                     | _ :: _ => sep ++ join sep more
                     end.
Proof. destruct more; simpl; rewrite ?app_nil_r; reflexivity. Qed.

Lemma turns_cons l1 l2 q a rest :
  turns l1 l2 ((q, a) :: rest)
  = l1 ++ q ++ (LF :: l2) ++ a
    ++ match rest with
       | [] => []
       | _ :: _ => LF :: turns l1 l2 rest
       end.
Proof.
  unfold turns. cbn [flat_map app fst snd]. rewrite join_two.
  rewrite <- !app_assoc. destruct rest as [|e rest]; reflexivity.
Qed.

(** A replacement that leaves the line feeds and the label of the answers
    alone acts on a history of plain exchanges through the label of the
    questions only. *)
Lemma replace_turns old new l1 l1' l2 exs :
  (forall s, replace_from old new (l1 ++ s) O
             = l1' ++ replace_from old new s O) ->
  (forall s, replace_from old new ((LF :: l2) ++ s) O
             = (LF :: l2) ++ replace_from old new s O) ->
  (forall s, replace_from old new ([LF] ++ s) O
             = [LF] ++ replace_from old new s O) ->
  forallb (fun x => negb (x =? LF)) old = true ->
  Forall (fun e => contains old e.1 = false /\ contains old e.2 = false) exs ->
  replace_from old new (turns l1 l2 exs) O = turns l1' l2 exs.
Proof.
  intros H1 H2 H3 HLF. induction 1 as [|[q a] rest [Hq Ha] _ IH];
    [reflexivity|].
  cbn [fst snd] in *. rewrite !turns_cons.
  rewrite H1, replace_copy_free by (exact Hq || exact HLF).
  rewrite H2, replace_copy_free;
    [|exact Ha | destruct rest; [reflexivity | exact HLF]].
  destruct rest as [|e rest]; [reflexivity|].
  change (LF :: turns l1 l2 (e :: rest)) with ([LF] ++ turns l1 l2 (e :: rest)).
  rewrite H3, IH. reflexivity.
Qed.

Lemma plain_labels t :
  plain t = true ->
  contains (py "Human: ") t = false /\ contains (py "Assistant: ") t = false.
Proof.
  unfold plain. intros [H1 H2]%andb_prop.
  rewrite negb_true_iff in H1, H2. auto.
Qed.

(** X22: the history of plain exchanges.  When the memory can be read and
    no question or answer of the session holds [Human: ] or [Assistant: ],
    the formatted history is, under the heading [Conversation History:],
    one line [User: ] with the question and one line [AI: ] with the answer
    for each exchange, oldest first; for a session without exchange it is
    the fixed text for a missing history. *)
Theorem format_chat_history_plain w memory :
  load_memory_raises w = None ->
  Forall (fun e => plain e.1 = true /\ plain e.2 = true) (exchanges memory) ->
  format_chat_history w memory =
  match exchanges memory with
  | [] => py "No previous conversation history."
  | _ :: _ =>
      py "Conversation History:" ++ [LF]
      ++ turns (py "User: ") (py "AI: ") (exchanges memory)
  end.
Proof.
  intros Hl Hp. unfold format_chat_history, replace. rewrite Hl.
  change (load_memory_variables memory)
    with (turns (py "Human: ") (py "AI: ") (exchanges memory)).
  destruct (exchanges memory) as [|[q a] rest] eqn:E; [reflexivity|].
  rewrite <- E in *.
  assert (is_empty (turns (py "Human: ") (py "AI: ") (exchanges memory))
          = false) as ->.
  { rewrite E, turns_cons. reflexivity. }
  rewrite (replace_turns (py "Human: ") (py "User: ")
             (py "Human: ") (py "User: ") (py "AI: ")).
  - rewrite (replace_turns (py "Assistant: ") (py "AI: ")
               (py "User: ") (py "User: ") (py "AI: ")); [reflexivity|..].
    + intros s. apply replace_copy_fixed. reflexivity.
    + intros s. apply replace_copy_fixed. reflexivity.
    + intros s. apply replace_copy_fixed. reflexivity.
    + reflexivity.
    + eapply Forall_impl; [exact Hp|]. intros e [H1 H2].
      split; [apply (plain_labels _ H1) | apply (plain_labels _ H2)].
  - intros s. apply replace_at. discriminate.
  - intros s. apply replace_copy_fixed. reflexivity.
  - intros s. apply replace_copy_fixed. reflexivity.
  - reflexivity.
  - eapply Forall_impl; [exact Hp|]. intros e [H1 H2].
    split; [apply (plain_labels _ H1) | apply (plain_labels _ H2)].
Qed.

Lemma format_chat_history_plain_witness :
  format_chat_history (working [])
    {| k := 5;
       exchanges := [(py "Hi", py "Hello!"); (py "Hours?", py "9 to 5")] |}
  = py "Conversation History:" ++ [LF] ++ py "User: Hi" ++ [LF]
    ++ py "AI: Hello!" ++ [LF] ++ py "User: Hours?" ++ [LF]
    ++ py "AI: 9 to 5".
Proof.
  apply (format_chat_history_plain (working [])
           {| k := 5;
              exchanges := [(py "Hi", py "Hello!"); (py "Hours?", py "9 to 5")] |}).
  - reflexivity.
  - repeat constructor.
Defined.

End PlainHistory.
